(** * Context Compression Middleware: a shallow embedding and its properties

    The embedded program is the class [ContextCompressionMiddleware]
    (context-compression part of the TypeScript sources).  The class keeps
    two arrays of [ContextItem] objects, [items] (resident) and
    [archivedItems], together with a capacity [maxSize]; [compress] evicts
    resident items to the archive when the resident set is over capacity.

    Conventions of the embedding.
    - A method [m(args)] becomes a function from the receiver's fields
      (a [Middleware] record) to a result paired with the new fields.
    - JavaScript numbers that hold fractions (priorities) are rationals [Q];
      numbers that hold sizes and epoch milliseconds are integers [Z]; the
      identifier counter is a natural number.  Comparison of finite doubles
      is comparison of their values, so only [NaN] and the infinities are
      outside the model.
    - [new Date()] reads the clock; the reading is an argument of [addItem].
    - [Array.prototype.sort] is stable and is embedded as a stable
      insertion sort: for a comparator that is a total preorder the stable
      sorted arrangement of an array is unique.
    - Strings are [string]; [length] counts characters. *)

From Stdlib Require Import List ZArith QArith String Ascii Bool Lia.
From Stdlib Require Import Permutation Sorted DecimalString DecimalNat.
Import ListNotations.

Local Open Scope Z_scope.

(** ** Data model (types.ts) *)

(** A [Date]: its epoch milliseconds and its ISO-8601 rendering. *)
Record Date := mkDate {
  getTime : Z;
  toISOString : string
}.

Record ContextItem := mkItem {
  id : string;
  content : string;
  priority : Q;          (* 0-1 (higher = more important) *)
  timestamp : Date;
  archived : bool
}.

Record CompressionResult := mkResult {
  originalSize : Z;
  compressedSize : Z;
  compressionRatio : option Q;   (* [None] is NaN (0/0) *)
  res_items : list ContextItem;
  res_archivedItems : list ContextItem
}.

Record ContextCompressionOptions := mkOptions {
  opt_maxSize : Z;
  opt_preserveInstructionsAtStart : option bool;
  opt_instructionsContent : option string;
  opt_archiveThreshold : option Q
}.

(** The private fields of the class. *)
Record Middleware := mkMiddleware {
  maxSize : Z;
  preserveInstructionsAtStart : bool;
  instructionsContent : string;
  archiveThreshold : Q;
  items : list ContextItem;
  archivedItems : list ContextItem;
  idCounter : nat
}.

(** Field updates. *)
Definition set_priority (p : Q) (i : ContextItem) : ContextItem :=
  mkItem (id i) (content i) p (timestamp i) (archived i).

Definition set_archived (b : bool) (i : ContextItem) : ContextItem :=
  mkItem (id i) (content i) (priority i) (timestamp i) b.

Definition with_items (l : list ContextItem) (m : Middleware) : Middleware :=
  mkMiddleware (maxSize m) (preserveInstructionsAtStart m)
    (instructionsContent m) (archiveThreshold m) l (archivedItems m)
    (idCounter m).

Definition with_archivedItems (l : list ContextItem) (m : Middleware)
  : Middleware :=
  mkMiddleware (maxSize m) (preserveInstructionsAtStart m)
    (instructionsContent m) (archiveThreshold m) (items m) l (idCounter m).

Definition with_maxSize (size : Z) (m : Middleware) : Middleware :=
  mkMiddleware size (preserveInstructionsAtStart m) (instructionsContent m)
    (archiveThreshold m) (items m) (archivedItems m) (idCounter m).

(** ** JavaScript primitives used by the class *)

Module JS.

(** [a > b], [a < b], [a <= b] on numbers. *)
Definition leq (a b : Q) : bool := Qle_bool a b.
Definition gt (a b : Q) : bool := negb (Qle_bool a b).
Definition lt (a b : Q) : bool := negb (Qle_bool b a).

Definition Math_min (a b : Q) : Q := if Qle_bool a b then a else b.
Definition Math_max (a b : Q) : Q := if Qle_bool a b then b else a.

(** [Math.ceil(n / 4)] for a length [n]. *)
Definition ceil_div4 (n : nat) : Z := (Z.of_nat n + 3) / 4.

(** Truthiness of a string: non-empty. *)
Definition truthy (s : string) : bool :=
  match s with EmptyString => false | String _ _ => true end.

(** Decimal rendering of a counter, as in a template literal. *)
Definition decimal (n : nat) : string :=
  NilEmpty.string_of_uint (Nat.to_uint n).

Section Arrays.
Context {A : Type}.

(** [Array.prototype.sort(compareFn)]: an element [x] moves behind a later
    element [y] only when [compareFn x y > 0]; elements that compare equal
    keep their order. *)
Variable compareFn : A -> A -> Q.

Fixpoint insert (x : A) (l : list A) : list A :=
  match l with
  | [] => [x]
  | y :: ys =>
      if Qle_bool (compareFn x y) 0 then x :: y :: ys
      else y :: insert x ys
  end.

Fixpoint sort (l : list A) : list A :=
  match l with
  | [] => []
  | x :: xs => insert x (sort xs)
  end.

(** [findIndex(pred)]: [None] stands for -1. *)
Fixpoint findIndex (pred : A -> bool) (l : list A) : option nat :=
  match l with
  | [] => None
  | x :: xs =>
      if pred x then Some O else option_map S (findIndex pred xs)
  end.

(** [splice(index, 1)]: the array without position [index]. *)
Definition splice1 (index : nat) (l : list A) : list A :=
  firstn index l ++ skipn (S index) l.

(** [slice(0, n)]; a negative [n] counts from the end. *)
Definition slice0 (n : Z) (l : list A) : list A :=
  if n <? 0 then firstn (Z.to_nat (Z.of_nat (List.length l) + n)) l
  else firstn (Z.to_nat n) l.
End Arrays.

End JS.

(** ** The class ContextCompressionMiddleware *)

Definition newline : string := String (ascii_of_nat 10) EmptyString.

(** Estimated size of one item: [Math.ceil(item.content.length / 4)]. *)
Definition itemSize (item : ContextItem) : Z :=
  JS.ceil_div4 (String.length (content item)).

Definition constructor (options : ContextCompressionOptions) : Middleware :=
  {| maxSize := opt_maxSize options;
     preserveInstructionsAtStart :=
       match opt_preserveInstructionsAtStart options with
       | Some b => b | None => true end;
     instructionsContent :=
       match opt_instructionsContent options with
       | Some s => if JS.truthy s then s else EmptyString
       | None => EmptyString end;
     archiveThreshold :=
       match opt_archiveThreshold options with
       | Some q => q | None => 3 # 10 end;
     items := [];
     archivedItems := [];
     idCounter := O |}.

Definition sizeOf (l : list ContextItem) : Z :=
  fold_left (fun total item => total + itemSize item) l 0.

Definition getCurrentSize (m : Middleware) : Z := sizeOf (items m).

(** The comparators passed to [sort]. *)
Definition byPriorityDesc (a b : ContextItem) : Q :=
  (priority b - priority a)%Q.

(** The tests [item.priority > 0.9] and [item.priority <= 0.9].  They are
    two separate tests in the source; on a priority that is a number,
    which is what [Q] holds, exactly one of them is true.  A NaN priority
    fails both: [compressWith] below takes the tests as parameters and
    covers that case. *)
Definition isCritical (i : ContextItem) : bool := JS.gt (priority i) (9 # 10).
Definition isRegular (i : ContextItem) : bool := JS.leq (priority i) (9 # 10).

Definition instructionsFirst (a b : ContextItem) : Q :=
  if isCritical a && isRegular b then (-1)%Q
  else if isCritical b && isRegular a then 1%Q
  else inject_Z (getTime (timestamp b) - getTime (timestamp a)).

(** The locals of [compress] on its over-capacity path. *)
Definition pinning (m : Middleware) : bool :=
  preserveInstructionsAtStart m && JS.truthy (instructionsContent m).

Definition sortedItems (m : Middleware) : list ContextItem :=
  JS.sort byPriorityDesc (items m).

Definition instructions (m : Middleware) : list ContextItem :=
  if pinning m then filter isCritical (sortedItems m) else [].

Definition regularItems (m : Middleware) : list ContextItem :=
  if pinning m then filter isRegular (sortedItems m) else sortedItems m.

Definition instructionsSize (m : Middleware) : Z :=
  sizeOf (instructions m).

Definition availableSize (m : Middleware) : Z :=
  maxSize m - instructionsSize m.

(** The selection loop.  Its variables are [keptItems], [currentSize] and
    the array [this.archivedItems]. *)
Record Selection := mkSelection {
  keptItems : list ContextItem;
  currentSize : Z;
  sel_archived : list ContextItem
}.

Definition selectItem (available : Z) (s : Selection) (item : ContextItem)
  : Selection :=
  if currentSize s + itemSize item <=? available
  then mkSelection (keptItems s ++ [item])
         (currentSize s + itemSize item) (sel_archived s)
  else mkSelection (keptItems s) (currentSize s)
         (sel_archived s ++ [set_archived true item]).

Definition selectLoop (available : Z) (regular : list ContextItem)
    (archive : list ContextItem) : Selection :=
  fold_left (selectItem available) regular (mkSelection [] 0 archive).

Definition ratio (compressed original : Z) : option Q :=
  if original =? 0 then None
  else Some (inject_Z compressed / inject_Z original)%Q.

Definition compress (m : Middleware) : CompressionResult * Middleware :=
  let originalSize := getCurrentSize m in
  if originalSize <=? maxSize m then
    (mkResult originalSize originalSize (Some 1%Q) (items m)
       (archivedItems m), m)
  else
    let sel := selectLoop (availableSize m) (regularItems m)
                 (archivedItems m) in
    let finalItems :=
      JS.sort instructionsFirst (instructions m ++ keptItems sel) in
    let m' := with_items finalItems (with_archivedItems (sel_archived sel) m) in
    let compressedSize := getCurrentSize m' in
    (mkResult originalSize compressedSize (ratio compressedSize originalSize)
       (items m') (archivedItems m'), m').

Definition hasId (itemId : string) (i : ContextItem) : bool :=
  String.eqb (id i) itemId.

(** [addItem(content, priority = 0.5)]; [now] is the value of
    [new Date()]. *)
Definition newId (m : Middleware) : string :=
  ("ctx_" ++ JS.decimal (S (idCounter m)))%string.

Definition addItem (content : string) (priority : option Q) (now : Date)
    (m : Middleware) : ContextItem * Middleware :=
  let item :=
    {| id := newId m;
       content := content;
       priority := match priority with Some p => p | None => 1 # 2 end;
       timestamp := now;
       archived := false |} in
  let m1 :=
    mkMiddleware (maxSize m) (preserveInstructionsAtStart m)
      (instructionsContent m) (archiveThreshold m) (items m ++ [item])
      (archivedItems m) (S (idCounter m)) in
  (item, snd (compress m1)).

Fixpoint addItems (l : list (string * option Q * Date)) (m : Middleware)
  : list ContextItem * Middleware :=
  match l with
  | [] => ([], m)
  | (c, p, now) :: rest =>
      let (item, m1) := addItem c p now m in
      let (created, m2) := addItems rest m1 in
      (item :: created, m2)
  end.

(** Assignment to a field of the first object that satisfies [pred]. *)
Fixpoint updateFirst (pred : ContextItem -> bool)
    (f : ContextItem -> ContextItem) (l : list ContextItem)
  : list ContextItem :=
  match l with
  | [] => []
  | x :: xs => if pred x then f x :: xs else x :: updateFirst pred f xs
  end.

Definition clamp (p : Q) : Q := JS.Math_max 0 (JS.Math_min 1 p).

Definition updatePriority (itemId : string) (p : Q) (m : Middleware)
  : bool * Middleware :=
  match find (hasId itemId) (items m) with
  | Some _ =>
      (true,
       with_items
         (updateFirst (hasId itemId) (set_priority (clamp p)) (items m)) m)
  | None => (false, m)
  end.

Definition byTimestampDesc (a b : ContextItem) : Q :=
  inject_Z (getTime (timestamp b) - getTime (timestamp a)).

Definition preview (item : ContextItem) : string :=
  (substring 0 50 (content item)
   ++ if (50 <? String.length (content item))%nat then "..." else "")%string.

Definition summaryLine (i : nat) (item : ContextItem) : string :=
  (JS.decimal (S i) ++ ". [" ++ toISOString (timestamp item) ++ "] "
   ++ preview item ++ newline)%string.

Fixpoint summaryLines (i : nat) (l : list ContextItem) : string :=
  match l with
  | [] => EmptyString
  | item :: rest => (summaryLine i item ++ summaryLines (S i) rest)%string
  end.

Definition noArchived : string := "No archived items to summarize.".

(** [summarizeArchived(maxItems = 5)].  [sort] is called on
    [this.archivedItems] itself, so the field holds the sorted array
    afterwards. *)
Definition summarizeArchived (maxItems : option Z) (m : Middleware)
  : string * Middleware :=
  let n := match maxItems with Some n => n | None => 5 end in
  let sorted := JS.sort byTimestampDesc (archivedItems m) in
  let m' := with_archivedItems sorted m in
  let archived := JS.slice0 n sorted in
  match archived with
  | [] => (noArchived, m')
  | _ :: _ =>
      (("📦 Archived Context Summary:" ++ newline
        ++ summaryLines 0 archived)%string, m')
  end.

Definition getItems (m : Middleware) : list ContextItem := items m.
Definition getArchivedItems (m : Middleware) : list ContextItem :=
  archivedItems m.

Definition removeItem (itemId : string) (m : Middleware)
  : bool * Middleware :=
  match JS.findIndex (hasId itemId) (items m) with
  | Some index => (true, with_items (JS.splice1 index (items m)) m)
  | None => (false, m)
  end.

Definition clear (m : Middleware) : Middleware :=
  with_archivedItems [] (with_items [] m).

Definition clearArchived (m : Middleware) : Middleware :=
  with_archivedItems [] m.

Definition setInstructions (content : string) (m : Middleware) : Middleware :=
  mkMiddleware (maxSize m) (preserveInstructionsAtStart m) content
    (archiveThreshold m) (items m) (archivedItems m) (idCounter m).

Definition getInstructions (m : Middleware) : string := instructionsContent m.

Definition setMaxSize (size : Z) (m : Middleware) : Middleware :=
  snd (compress (with_maxSize size m)).

(** [restoreItem]: [findIndex] on the archive, [splice] the item out, clear
    its flag, push it on [items], and [compress].  An index returned by
    [findIndex] is always in range, so the last branch is never taken. *)
Definition restoreItem (itemId : string) (m : Middleware)
  : bool * Middleware :=
  match JS.findIndex (hasId itemId) (archivedItems m) with
  | Some index =>
      match nth_error (archivedItems m) index with
      | Some item =>
          let m1 :=
            with_archivedItems (JS.splice1 index (archivedItems m)) m in
          let m2 := with_items (items m1 ++ [set_archived false item]) m1 in
          (true, snd (compress m2))
      | None => (false, m)
      end
  | None => (false, m)
  end.

(** [archiveLowPriority]: the objects selected by the first [filter] are
    the very objects held by [this.items], so flagging them is visible to
    the second [filter]. *)
Definition belowThreshold (m : Middleware) (item : ContextItem) : bool :=
  JS.lt (priority item) (archiveThreshold m).

Definition archiveLowPriority (m : Middleware) : nat * Middleware :=
  let toArchive := filter (belowThreshold m) (items m) in
  let flagged :=
    map (fun item =>
           if belowThreshold m item then set_archived true item else item)
      (items m) in
  let m1 :=
    with_archivedItems (archivedItems m ++ map (set_archived true) toArchive)
      m in
  (List.length toArchive,
   with_items (filter (fun item => negb (archived item)) flagged) m1).

(** ** Sequences of calls *)

Inductive Call :=
| CAddItem (content : string) (priority : option Q) (now : Date)
| CUpdatePriority (itemId : string) (priority : Q)
| CRemoveItem (itemId : string)
| CRestoreItem (itemId : string)
| CArchiveLowPriority
| CCompress
| CClear
| CClearArchived
| CSetMaxSize (size : Z)
| CSetInstructions (content : string)
| CSummarizeArchived (maxItems : option Z).

Definition call (m : Middleware) (c : Call) : Middleware :=
  match c with
  | CAddItem content p now => snd (addItem content p now m)
  | CUpdatePriority itemId p => snd (updatePriority itemId p m)
  | CRemoveItem itemId => snd (removeItem itemId m)
  | CRestoreItem itemId => snd (restoreItem itemId m)
  | CArchiveLowPriority => snd (archiveLowPriority m)
  | CCompress => snd (compress m)
  | CClear => clear m
  | CClearArchived => clearArchived m
  | CSetMaxSize size => setMaxSize size m
  | CSetInstructions content => setInstructions content m
  | CSummarizeArchived n => snd (summarizeArchived n m)
  end.

Definition run (options : ContextCompressionOptions) (calls : list Call)
  : Middleware :=
  fold_left call calls (constructor options).

Definition reachable (m : Middleware) : Prop :=
  exists options calls, m = run options calls.

Definition ids (l : list ContextItem) : list string := map id l.

(** ** Notions used to state the properties *)

(** [precedes x y l]: some occurrence of [x] is before some occurrence of
    [y] in [l]. *)
Definition precedes {A : Type} (x y : A) (l : list A) : Prop :=
  exists l1 l2 l3, l = l1 ++ x :: l2 ++ y :: l3.

(** The selection loop as a recursive first-fit pass.

    [kept available cur l] and [rejected available cur l] are the items of
    [l] that the loop accepts and refuses when it starts with
    [currentSize = cur]. *)
Fixpoint kept (available cur : Z) (l : list ContextItem)
  : list ContextItem :=
  match l with
  | [] => []
  | item :: rest =>
      if cur + itemSize item <=? available
      then item :: kept available (cur + itemSize item) rest
      else kept available cur rest
  end.

Fixpoint rejected (available cur : Z) (l : list ContextItem)
  : list ContextItem :=
  match l with
  | [] => []
  | item :: rest =>
      if cur + itemSize item <=? available
      then rejected available (cur + itemSize item) rest
      else item :: rejected available cur rest
  end.

(** Descending priority. *)
Definition priorityDesc (a b : ContextItem) : Prop :=
  (priority b <= priority a)%Q.

Definition overCapacity (m : Middleware) : bool :=
  negb (getCurrentSize m <=? maxSize m).

(** The items that one run of [compress] moves to the archive. *)
Definition evicted (m : Middleware) : list ContextItem :=
  if overCapacity m
  then rejected (availableSize m) 0 (regularItems m) else [].

(** The regular items that one run of [compress] accepts. *)
Definition accepted (m : Middleware) : list ContextItem :=
  kept (availableSize m) 0 (regularItems m).

(** ** Example clock readings, items and states *)

Definition date1 : Date := mkDate 1 "1970-01-01T00:00:00.001Z".
Definition date2 : Date := mkDate 2 "1970-01-01T00:00:00.002Z".
Definition date3 : Date := mkDate 3 "1970-01-01T00:00:00.003Z".
Definition date4 : Date := mkDate 4 "1970-01-01T00:00:00.004Z".

(** Pinning on with the text "Be brief.", capacity 1; one item of size 2
    and priority 1 is added (and stays, being critical), then the pinned
    text is set to the empty string. *)
Definition unpinned_state : Middleware :=
  run (mkOptions 1 (Some true) (Some "Be brief."%string) None)
    [CAddItem "critical" (Some 1%Q) date1; CSetInstructions ""].

Definition critical_item : ContextItem :=
  mkItem "ctx_1" "critical" 1 date1 false.

Definition pinned_state : Middleware :=
  run (mkOptions 1 (Some true) (Some "Be brief."%string) None)
    [CAddItem "critical" (Some 1%Q) date1].

(** Pinning on with an 8-character text (estimated size 2); two regular
    items of size 2 each fit in capacity 10. *)
Definition pinned_two_items : Middleware :=
  run (mkOptions 10 (Some true) (Some "PPPPPPPP"%string) None)
    [CAddItem "aaaaaaaa" (Some (1 # 2)) date1;
     CAddItem "bbbbbbbb" (Some (2 # 5)) date2].

Definition item_a : ContextItem :=
  mkItem "ctx_1" "aaaaaaaa" (1 # 2) date1 false.

(** Three regular items of sizes 2, 5 and 1 with priorities 0.8, 0.7 and
    0.6, all resident under capacity 10. *)
Definition three_items : Middleware :=
  run (mkOptions 10 None None None)
    [CAddItem "aaaaaaaa" (Some (4 # 5)) date1;
     CAddItem "bbbbbbbbbbbbbbbbbbbb" (Some (7 # 10)) date2;
     CAddItem "cccc" (Some (3 # 5)) date3].

Definition small_first : ContextItem :=
  mkItem "ctx_1" "aaaaaaaa" (4 # 5) date1 false.
Definition large_second : ContextItem :=
  mkItem "ctx_2" "bbbbbbbbbbbbbbbbbbbb" (7 # 10) date2 false.
Definition small_third : ContextItem :=
  mkItem "ctx_3" "cccc" (3 # 5) date3 false.

(** Capacity 5; twins X then Y (priority 0.5, size 2), then W (priority
    0.1, size 2), then Z (priority 0.8, size 2). *)
Definition twin_calls : list Call :=
  [CAddItem "xxxxxxxx" (Some (1 # 2)) date1;
   CAddItem "yyyyyyyy" (Some (1 # 2)) date2;
   CAddItem "wwwwwwww" (Some (1 # 10)) date3;
   CAddItem "zzzzzzzz" (Some (4 # 5)) date4].

Definition twin_options : ContextCompressionOptions :=
  mkOptions 5 None None None.

Definition twin_x : ContextItem :=
  mkItem "ctx_1" "xxxxxxxx" (1 # 2) date1 false.
Definition twin_y : ContextItem :=
  mkItem "ctx_2" "yyyyyyyy" (1 # 2) date2 false.
Definition item_w : ContextItem :=
  mkItem "ctx_3" "wwwwwwww" (1 # 10) date3 false.
Definition item_z : ContextItem :=
  mkItem "ctx_4" "zzzzzzzz" (4 # 5) date4 false.

(** The receiver of the [compress] run inside the fourth [addItem]: the
    state after the first three calls with Z pushed on [items]. *)
Definition twin_overfull : Middleware :=
  let s := run twin_options (firstn 3 twin_calls) in
  with_items (items s ++ [item_z]) s.

(** The receiver of the [compress] run inside the third [addItem]. *)
Definition twin_overfull_w : Middleware :=
  let s := run twin_options (firstn 2 twin_calls) in
  with_items (items s ++ [item_w]) s.

(** ** The identifier invariant *)

(** Identifiers of both arrays, resident first. *)
Definition all_ids (m : Middleware) : list string :=
  ids (items m) ++ ids (archivedItems m).

(** [issued n s]: [s] is one of the first [n] identifiers handed out by
    [addItem]. *)
Definition issued (n : nat) (s : string) : Prop :=
  exists k, (1 <= k <= n)%nat /\ s = ("ctx_" ++ JS.decimal k)%string.

(** No identifier occurs twice over the two arrays, and every identifier
    was issued by the counter. *)
Definition wf (m : Middleware) : Prop :=
  NoDup (all_ids m) /\ Forall (issued (idCounter m)) (all_ids m).

(** Capacity 1: the single item of size 2 is archived as soon as it is
    added. *)
Definition tiny_state : Middleware :=
  run (mkOptions 1 None None None)
    [CAddItem "aaaaaaaa" (Some (1 # 2)) date1].

(** Capacity 1: two items of size 2, added at times 1 and 2, are archived
    in that order. *)
Definition two_archived : Middleware :=
  run (mkOptions 1 None None None)
    [CAddItem "aaaaaaaa" (Some (1 # 2)) date1;
     CAddItem "bbbbbbbb" (Some (1 # 2)) date2].

Definition archived_a : ContextItem :=
  mkItem "ctx_1" "aaaaaaaa" (1 # 2) date1 true.
Definition archived_b : ContextItem :=
  mkItem "ctx_2" "bbbbbbbb" (1 # 2) date2 true.

(** The priority range documented for [ContextItem.priority]. *)
Definition inRange (p : Q) : Prop := (0 <= p /\ p <= 1)%Q.

(** Every stored priority, resident or archived, is in [0,1]. *)
Definition priorities_inRange (m : Middleware) : Prop :=
  forall i, In i (items m ++ archivedItems m) -> inRange (priority i).

(** [derived m m']: every item of [m'] has the priority of some item
    of [m]. *)
Definition derived (m m' : Middleware) : Prop :=
  forall i, In i (items m' ++ archivedItems m') ->
            exists j, In j (items m ++ archivedItems m) /\
                      priority i = priority j.

(** A call that creates no item with a priority outside [0,1]. *)
Definition call_inRange (c : Call) : Prop :=
  match c with
  | CAddItem _ (Some p) _ => inRange p
  | _ => True
  end.

(** ** The remaining methods of ContextCompressionMiddleware *)

(** A quotient of two numbers: [NotFinite] is a division by zero
    (Infinity or NaN). *)
Inductive Quotient :=
| Finite (q : Q)
| NotFinite.

Record Stats := mkStats {
  st_currentSize : Z;
  st_maxSize : Z;
  st_itemCount : nat;
  st_archivedCount : nat;
  st_utilization : Quotient
}.

Definition getStats (m : Middleware) : Stats :=
  let currentSize := getCurrentSize m in
  {| st_currentSize := currentSize;
     st_maxSize := maxSize m;
     st_itemCount := List.length (items m);
     st_archivedCount := List.length (archivedItems m);
     st_utilization :=
       if maxSize m =? 0 then NotFinite
       else Finite (inject_Z currentSize / inject_Z (maxSize m))%Q |}.

(** [getFormattedContext]: its local [sortedItems], the label of an item
    and the text. *)
Definition formattedItems (m : Middleware) : list ContextItem :=
  JS.sort instructionsFirst (items m).

Definition priorityLabel (item : ContextItem) : string :=
  if JS.gt (priority item) (9 # 10) then "⭐"
  else if JS.gt (priority item) (6 # 10) then "📌"
  else "📝".

Fixpoint formattedLines (i : nat) (l : list ContextItem) : string :=
  match l with
  | [] => EmptyString
  | item :: rest =>
      (priorityLabel item ++ " [" ++ JS.decimal (S i) ++ "] "
       ++ content item ++ newline ++ newline
       ++ formattedLines (S i) rest)%string
  end.

Definition getFormattedContext (m : Middleware) : string :=
  ((if pinning m
    then "📋 INSTRUCTIONS:" ++ newline ++ instructionsContent m
         ++ newline ++ newline
    else "")
   ++ formattedLines 0 (formattedItems m)
   ++ (if (0 <? List.length (archivedItems m))%nat
       then newline ++ "--- Previous context archived ("
            ++ JS.decimal (List.length (archivedItems m)) ++ " items) ---"
            ++ newline
       else ""))%string.

(** ** Further notions used to state properties *)

(** The order in which [compress] leaves the resident array and in which
    [getFormattedContext] lists it: items with priority > 0.9 before the
    others, and by descending creation time within each group. *)
Definition displayOrder (a b : ContextItem) : Prop :=
  (isRegular a = false /\ isRegular b = true) \/
  (isRegular a = isRegular b /\
   getTime (timestamp b) <= getTime (timestamp a)).

(** Descending creation time. *)
Definition timestampDesc (a b : ContextItem) : Prop :=
  getTime (timestamp b) <= getTime (timestamp a).

(** The flag [archived] agrees with the array that holds the item. *)
Definition flags_ok (m : Middleware) : Prop :=
  Forall (fun i => archived i = false) (items m) /\
  Forall (fun i => archived i = true) (archivedItems m).

(** The calls that only ever append to the archive. *)
Definition appendsToArchive (c : Call) : bool :=
  match c with
  | CAddItem _ _ _ | CUpdatePriority _ _ | CRemoveItem _
  | CArchiveLowPriority | CCompress | CSetMaxSize _
  | CSetInstructions _ => true
  | CRestoreItem _ | CClear | CClearArchived | CSummarizeArchived _ => false
  end.

(** The call that [addItems] makes for one element of its argument. *)
Definition addCall (x : string * option Q * Date) : Call :=
  let '(c, p, now) := x in CAddItem c p now.

(** * The class AgentPerformanceProfiler

    Conventions, in addition to those above.
    - The [Map] of agents is an association list in insertion order:
      [set] on a new key appends, and assigning to a field of the object
      returned by [get] updates the entry in place.
    - Token counts, times and call counts are integers [Z]; the average
      execution time is the exact quotient, which is what the double holds
      for the magnitudes a profile reaches.
    - [Date.now()] and [new Date()] are arguments of the methods that read
      the clock.
    - An alert callback is named by a number; the calls made to the
      callbacks are logged in the field [delivered].  Callbacks are taken
      to return normally and not to call back into the profiler.
    - [getContextWindowUtilization], [getProfile] and [getSummary] are not
      embedded: they add doubles and format numbers with the host's
      locale. *)

Module Profiler.

Inductive EventType := Start | End_ | Error | Context.

Record ProfilerEvent := mkEvent {
  type : EventType;
  ev_agentId : string;
  ev_agentName : string;
  ev_timestamp : Date;
  tokens : option Z;
  contextSize : option Z;
  contextLimit : option Z;
  error : option string
}.

Record AgentMetrics := mkMetrics {
  agentId : string;
  agentName : string;
  tokensUsed : Z;
  executionTimeMs : Z;
  contextUtilization : Quotient;
  calls : Z;
  errors : Z
}.

Record ProfilerOptions := mkProfilerOptions {
  opt_workflowId : string;
  opt_trackContextUtilization : option bool;
  opt_alertOnBottleneck : option bool
}.

Definition Callback := nat.

(** The private fields of the class, and the log of callback calls. *)
Record Profiler := mkProfiler {
  workflowId : string;
  trackContextUtilization : bool;
  alertOnBottleneck : bool;
  agents : list (string * AgentMetrics);
  events : list ProfilerEvent;
  startTime : Z;
  bottlenecks : list string;
  alertCallbacks : list Callback;
  delivered : list (Callback * string)
}.

Definition with_agents (l : list (string * AgentMetrics)) (p : Profiler)
  : Profiler :=
  mkProfiler (workflowId p) (trackContextUtilization p) (alertOnBottleneck p)
    l (events p) (startTime p) (bottlenecks p) (alertCallbacks p)
    (delivered p).

Definition push_event (e : ProfilerEvent) (p : Profiler) : Profiler :=
  mkProfiler (workflowId p) (trackContextUtilization p) (alertOnBottleneck p)
    (agents p) (events p ++ [e]) (startTime p) (bottlenecks p)
    (alertCallbacks p) (delivered p).

(** [Map.prototype.get], [has], [set] and the update of a stored
    object. *)
Definition isKey (key : string) (kv : string * AgentMetrics) : bool :=
  String.eqb (fst kv) key.

Definition Map_get (key : string) (l : list (string * AgentMetrics))
  : option AgentMetrics :=
  option_map snd (find (isKey key) l).

Definition Map_has (key : string) (l : list (string * AgentMetrics)) : bool :=
  match Map_get key l with Some _ => true | None => false end.

Fixpoint Map_update (key : string) (f : AgentMetrics -> AgentMetrics)
    (l : list (string * AgentMetrics)) : list (string * AgentMetrics) :=
  match l with
  | [] => []
  | kv :: rest =>
      if isKey key kv then (fst kv, f (snd kv)) :: rest
      else kv :: Map_update key f rest
  end.

Definition Map_set (key : string) (v : AgentMetrics)
    (l : list (string * AgentMetrics)) : list (string * AgentMetrics) :=
  if Map_has key l then Map_update key (fun _ => v) l else l ++ [(key, v)].

(** Numbers in template literals, and [toFixed(0)]: the nearest integer,
    the larger one on a tie, of the absolute value, after the sign. *)
Definition numberToString (z : Z) : string :=
  if z <? 0 then ("-" ++ JS.decimal (Z.to_nat (- z)))%string
  else JS.decimal (Z.to_nat z).

Definition roundHalfUp (q : Q) : Z :=
  (2 * Qnum q + Zpos (Qden q)) / (2 * Zpos (Qden q)).

Definition toFixed0 (q : Q) : string :=
  if Qle_bool 0 q then JS.decimal (Z.to_nat (roundHalfUp q))
  else ("-" ++ JS.decimal (Z.to_nat (roundHalfUp (- q))))%string.

Definition constructor (options : ProfilerOptions) (now : Z) : Profiler :=
  {| workflowId := opt_workflowId options;
     trackContextUtilization :=
       match opt_trackContextUtilization options with
       | Some b => b | None => true end;
     alertOnBottleneck :=
       match opt_alertOnBottleneck options with
       | Some b => b | None => false end;
     agents := [];
     events := [];
     startTime := now;
     bottlenecks := [];
     alertCallbacks := [];
     delivered := [] |}.

Definition trackAgent (id name : string) (p : Profiler) : Profiler :=
  if negb (Map_has id (agents p))
  then with_agents
         (Map_set id (mkMetrics id name 0 0 (Finite 0) 0 0) (agents p)) p
  else p.

Definition recordStart (id name : string) (stamp : Date) (p : Profiler)
  : Profiler :=
  push_event (mkEvent Start id name stamp None None None None)
    (trackAgent id name p).

Definition getAverageExecutionTime (p : Profiler) : Q :=
  let totalTime :=
    fold_left (fun t kv => t + executionTimeMs (snd kv)) (agents p) 0 in
  let totalCalls :=
    fold_left (fun t kv => t + calls (snd kv)) (agents p) 0 in
  if 0 <? totalCalls then (inject_Z totalTime / inject_Z totalCalls)%Q
  else 0%Q.

Definition bottleneckMsg (agent : AgentMetrics) (avgTime : Q) : string :=
  ("Agent " ++ String (ascii_of_nat 34) (agentName agent)
   ++ String (ascii_of_nat 34) " exceeded average execution time ("
   ++ numberToString (executionTimeMs agent) ++ "ms vs "
   ++ toFixed0 avgTime ++ "ms avg)")%string.

Definition includes (s : string) (l : list string) : bool :=
  existsb (String.eqb s) l.

Definition checkBottleneck (agent : AgentMetrics) (p : Profiler)
  : Profiler :=
  let avgTime := getAverageExecutionTime p in
  let threshold := (avgTime * 2)%Q in
  if JS.gt (inject_Z (executionTimeMs agent)) threshold
     && (0 <? calls agent)
  then
    let msg := bottleneckMsg agent avgTime in
    if negb (includes msg (bottlenecks p))
    then
      mkProfiler (workflowId p) (trackContextUtilization p)
        (alertOnBottleneck p) (agents p) (events p) (startTime p)
        (bottlenecks p ++ [msg]) (alertCallbacks p)
        (if alertOnBottleneck p
         then delivered p ++ map (fun cb => (cb, msg)) (alertCallbacks p)
         else delivered p)
    else p
  else p.

(** The start event that [recordEnd] measures from: the last one logged
    for the agent. *)
Definition isStartOf (id : string) (e : ProfilerEvent) : bool :=
  match type e with
  | Start => String.eqb (ev_agentId e) id
  | _ => false
  end.

Definition lastStart (id : string) (l : list ProfilerEvent)
  : option ProfilerEvent :=
  List.last (map Some (filter (isStartOf id) l)) None.

Definition ended (used executionTime : Z) (agent : AgentMetrics)
  : AgentMetrics :=
  mkMetrics (agentId agent) (agentName agent)
    (tokensUsed agent + used)
    (executionTimeMs agent + executionTime)
    (contextUtilization agent) (calls agent + 1) (errors agent).

Definition recordEnd (id : string) (used : Z) (now : Z) (stamp : Date)
    (p : Profiler) : Profiler :=
  match Map_get id (agents p) with
  | None => p
  | Some agent =>
      let executionTime :=
        match lastStart id (events p) with
        | Some startEvent => now - getTime (ev_timestamp startEvent)
        | None => 0
        end in
      let agent' := ended used executionTime agent in
      let p1 := with_agents (Map_update id (fun _ => agent') (agents p)) p in
      let p2 :=
        push_event
          (mkEvent End_ id (agentName agent') stamp (Some used)
             None None None) p1 in
      checkBottleneck agent' p2
  end.

Definition failed (agent : AgentMetrics) : AgentMetrics :=
  mkMetrics (agentId agent) (agentName agent) (tokensUsed agent)
    (executionTimeMs agent) (contextUtilization agent) (calls agent)
    (errors agent + 1).

Definition recordError (id : string) (err : string) (stamp : Date)
    (p : Profiler) : Profiler :=
  let agent := Map_get id (agents p) in
  let p1 :=
    match agent with
    | Some _ => with_agents (Map_update id failed (agents p)) p
    | None => p
    end in
  push_event
    (mkEvent Error id
       match agent with
       | Some a => if JS.truthy (agentName a) then agentName a
                   else "unknown"
       | None => "unknown"
       end
       stamp None None None (Some err)) p1.

Definition divide (a b : Z) : Quotient :=
  if b =? 0 then NotFinite else Finite (inject_Z a / inject_Z b)%Q.

Definition utilized (u : Quotient) (agent : AgentMetrics) : AgentMetrics :=
  mkMetrics (agentId agent) (agentName agent) (tokensUsed agent)
    (executionTimeMs agent) u (calls agent) (errors agent).

Definition recordContext (id : string) (size limit : Z) (stamp : Date)
    (p : Profiler) : Profiler :=
  match Map_get id (agents p) with
  | None => p
  | Some agent =>
      if negb (trackContextUtilization p) then p
      else
        push_event
          (mkEvent Context id (agentName agent) stamp None (Some size)
             (Some limit) None)
          (with_agents
             (Map_update id (utilized (divide size limit)) (agents p)) p)
  end.

Definition getTotalTokens (p : Profiler) : Z :=
  fold_left (fun total kv => total + tokensUsed (snd kv)) (agents p) 0.

Definition getTotalTime (now : Z) (p : Profiler) : Z := now - startTime p.

Definition byTokensDesc (a b : AgentMetrics) : Q :=
  inject_Z (tokensUsed b - tokensUsed a).

Definition byTimeDesc (a b : AgentMetrics) : Q :=
  inject_Z (executionTimeMs b - executionTimeMs a).

Definition getAllAgents (p : Profiler) : list AgentMetrics :=
  map snd (agents p).

Definition getTopConsumers (limit : option Z) (p : Profiler)
  : list AgentMetrics :=
  JS.slice0 (match limit with Some n => n | None => 5 end)
    (JS.sort byTokensDesc (getAllAgents p)).

Definition getTopSlowest (limit : option Z) (p : Profiler)
  : list AgentMetrics :=
  JS.slice0 (match limit with Some n => n | None => 5 end)
    (JS.sort byTimeDesc (getAllAgents p)).

Definition getAgent (id : string) (p : Profiler) : option AgentMetrics :=
  Map_get id (agents p).

Definition getBottlenecks (p : Profiler) : list string := bottlenecks p.

Definition onBottleneck (callback : Callback) (p : Profiler) : Profiler :=
  mkProfiler (workflowId p) (trackContextUtilization p) (alertOnBottleneck p)
    (agents p) (events p) (startTime p) (bottlenecks p)
    (alertCallbacks p ++ [callback]) (delivered p).

Definition reset (now : Z) (p : Profiler) : Profiler :=
  mkProfiler (workflowId p) (trackContextUtilization p) (alertOnBottleneck p)
    [] [] now [] (alertCallbacks p) (delivered p).

Definition getEvents (p : Profiler) : list ProfilerEvent := events p.
Definition getWorkflowId (p : Profiler) : string := workflowId p.

(** Sequences of calls. *)
Inductive Call :=
| CTrackAgent (id name : string)
| CRecordStart (id name : string) (stamp : Date)
| CRecordEnd (id : string) (used : Z) (now : Z) (stamp : Date)
| CRecordError (id : string) (err : string) (stamp : Date)
| CRecordContext (id : string) (size limit : Z) (stamp : Date)
| COnBottleneck (callback : Callback)
| CReset (now : Z).

Definition call (p : Profiler) (c : Call) : Profiler :=
  match c with
  | CTrackAgent id name => trackAgent id name p
  | CRecordStart id name stamp => recordStart id name stamp p
  | CRecordEnd id t now stamp => recordEnd id t now stamp p
  | CRecordError id err stamp => recordError id err stamp p
  | CRecordContext id size limit stamp => recordContext id size limit stamp p
  | COnBottleneck cb => onBottleneck cb p
  | CReset now => reset now p
  end.

Definition run (options : ProfilerOptions) (now : Z) (calls : list Call)
  : Profiler :=
  fold_left call calls (constructor options now).

Definition reachable (p : Profiler) : Prop :=
  exists options now calls, p = run options now calls.

(** The end events of the log and what they say about one agent. *)
Definition isEndOf (id : string) (e : ProfilerEvent) : bool :=
  match type e with
  | End_ => String.eqb (ev_agentId e) id
  | _ => false
  end.

Definition isEnd (e : ProfilerEvent) : bool :=
  match type e with End_ => true | _ => false end.

Definition tokensOf (e : ProfilerEvent) : Z :=
  match tokens e with Some t => t | None => 0 end.

Definition sumTokens (l : list ProfilerEvent) : Z :=
  fold_right (fun e total => tokensOf e + total) 0 l.

Definition keys (l : list (string * AgentMetrics)) : list string :=
  map fst l.

(** Descending order of the two rankings. *)
Definition tokensDesc (a b : AgentMetrics) : Prop :=
  tokensUsed b <= tokensUsed a.
Definition timeDesc (a b : AgentMetrics) : Prop :=
  executionTimeMs b <= executionTimeMs a.

(** The metrics of every agent agree with the log: the keys of the map
    are distinct, each entry is stored under its own identifier, its call
    count and its tokens are the number and the token sum of the end
    events logged for it, and every end event belongs to a tracked
    agent. *)
Definition consistent (p : Profiler) : Prop :=
  NoDup (keys (agents p)) /\
  (forall k a, In (k, a) (agents p) ->
     agentId a = k /\
     calls a = Z.of_nat (List.length (filter (isEndOf k) (events p))) /\
     tokensUsed a = sumTokens (filter (isEndOf k) (events p)) /\
     0 <= errors a) /\
  (forall e, In e (events p) -> isEnd e = true ->
             In (ev_agentId e) (keys (agents p))).

(** Example profile. *)
Definition example_profile : Profiler :=
  run (mkProfilerOptions "wf" None (Some true)) 0
    [COnBottleneck 7%nat;
     CRecordStart "a1" "planner" date1;
     CRecordEnd "a1" 100 11 date2;
     CRecordEnd "a1" 50 21 date3;
     CRecordEnd "a1" 25 31 date4].

End Profiler.

(** ** [compress] and [addItem] for any outcome of the tests and sorts

    [compress] filters the sorted items twice, once with
    [item.priority > 0.9] and once with [item.priority <= 0.9], and sorts
    twice with comparators that subtract or compare priorities.  When a
    priority is NaN both tests are false and the comparators are not
    consistent, so that the order [sort] produces depends on the host.
    Here the two tests and the two sorts are parameters: [critical] and
    [regular] are the tests, [sortByPriority] and [sortForDisplay] the
    results of the two [sort] calls.  [compress] is the instance at
    [isCritical], [isRegular] and the stable sorts. *)
Section AnyTests.
Variables critical regular : ContextItem -> bool.
Variables sortByPriority sortForDisplay :
  list ContextItem -> list ContextItem.

Definition instructionsWith (m : Middleware) : list ContextItem :=
  if pinning m then filter critical (sortByPriority (items m)) else [].

Definition regularItemsWith (m : Middleware) : list ContextItem :=
  if pinning m then filter regular (sortByPriority (items m))
  else sortByPriority (items m).

Definition compressWith (m : Middleware) : CompressionResult * Middleware :=
  let originalSize := getCurrentSize m in
  if originalSize <=? maxSize m then
    (mkResult originalSize originalSize (Some 1%Q) (items m)
       (archivedItems m), m)
  else
    let availableSize := maxSize m - sizeOf (instructionsWith m) in
    let sel := selectLoop availableSize (regularItemsWith m)
                 (archivedItems m) in
    let finalItems := sortForDisplay (instructionsWith m ++ keptItems sel) in
    let m' := with_items finalItems (with_archivedItems (sel_archived sel) m) in
    let compressedSize := getCurrentSize m' in
    (mkResult originalSize compressedSize (ratio compressedSize originalSize)
       (items m') (archivedItems m'), m').

Definition addItemWith (content : string) (priority : option Q) (now : Date)
    (m : Middleware) : ContextItem * Middleware :=
  let item :=
    {| id := newId m;
       content := content;
       priority := match priority with Some p => p | None => 1 # 2 end;
       timestamp := now;
       archived := false |} in
  let m1 :=
    mkMiddleware (maxSize m) (preserveInstructionsAtStart m)
      (instructionsContent m) (archiveThreshold m) (items m ++ [item])
      (archivedItems m) (S (idCounter m)) in
  (item, snd (compressWith m1)).
End AnyTests.

(** The items that one run of [compressWith] moves to the archive. *)
Definition evictedWith (regular : ContextItem -> bool)
    (sortByPriority : list ContextItem -> list ContextItem)
    (critical : ContextItem -> bool) (m : Middleware) : list ContextItem :=
  if overCapacity m
  then rejected
         (maxSize m - sizeOf (instructionsWith critical sortByPriority m)) 0
         (regularItemsWith regular sortByPriority m)
  else [].

(* end of definitions *)

(** * Properties *)

(** ** Arrays: order of elements and [sort] *)

Section Order.
Context {A : Type}.
Implicit Types (x y z : A) (l : list A).

Lemma precedes_cons x y z l :
  precedes x y (z :: l) <-> (x = z /\ In y l) \/ precedes x y l.
Proof.
  split.
  - intros (l1 & l2 & l3 & E). destruct l1 as [|w l1]; simpl in E.
    + injection E as -> ->. left. split; [reflexivity|].
      apply in_or_app. right. now left.
    + injection E as -> ->. right. now exists l1, l2, l3.
  - intros [[-> Hy] | (l1 & l2 & l3 & ->)].
    + apply in_split in Hy as (l2 & l3 & ->). now exists [], l2, l3.
    + now exists (z :: l1), l2, l3.
Qed.

Lemma precedes_nil x y : ~ precedes x y [].
Proof. intros (l1 & l2 & l3 & E). now destruct l1. Qed.

Lemma precedes_In x y l : precedes x y l -> In x l /\ In y l.
Proof.
  intros (l1 & l2 & l3 & ->). split.
  - apply in_or_app. right. now left.
  - apply in_or_app. right. right. apply in_or_app. right. now left.
Qed.

Lemma precedes_filter (p : A -> bool) x y l :
  precedes x y l -> p x = true -> p y = true ->
  precedes x y (filter p l).
Proof.
  intros (l1 & l2 & l3 & ->) Hx Hy.
  exists (filter p l1), (filter p l2), (filter p l3).
  rewrite filter_app. simpl. rewrite Hx, filter_app. simpl.
  now rewrite Hy.
Qed.

Section Sort.
Variable compareFn : A -> A -> Q.

Lemma insert_perm x l : Permutation (JS.insert compareFn x l) (x :: l).
Proof.
  induction l as [|y ys IH]; simpl; [reflexivity|].
  destruct (Qle_bool (compareFn x y) 0); [reflexivity|].
  rewrite IH. apply perm_swap.
Qed.

Lemma sort_perm l : Permutation (JS.sort compareFn l) l.
Proof.
  induction l as [|x xs IH]; simpl; [reflexivity|].
  rewrite insert_perm. now constructor.
Qed.

Lemma sort_In x l : In x (JS.sort compareFn l) <-> In x l.
Proof.
  split; apply Permutation_in;
    [apply sort_perm | symmetry; apply sort_perm].
Qed.

(** Stability. *)
Lemma insert_precedes a x y l :
  precedes x y l -> precedes x y (JS.insert compareFn a l).
Proof.
  induction l as [|z zs IH]; simpl; intros H.
  - now apply precedes_nil in H.
  - destruct (Qle_bool (compareFn a z) 0).
    + apply precedes_cons. now right.
    + apply precedes_cons in H as [[-> Hy] | H].
      * apply precedes_cons. left. split; [reflexivity|].
        apply (Permutation_in _ (Permutation_sym (insert_perm a zs))).
        now right.
      * apply precedes_cons. right. now apply IH.
Qed.

Lemma insert_before x y l :
  In y l -> Qle_bool (compareFn x y) 0 = true ->
  precedes x y (JS.insert compareFn x l).
Proof.
  induction l as [|z zs IH]; simpl; intros Hy Hc; [contradiction|].
  destruct (Qle_bool (compareFn x z) 0) eqn:Hz.
  - apply precedes_cons. now left.
  - destruct Hy as [-> | Hy]; [congruence|].
    apply precedes_cons. right. now apply IH.
Qed.

Lemma sort_stable x y l :
  precedes x y l -> Qle_bool (compareFn x y) 0 = true ->
  precedes x y (JS.sort compareFn l).
Proof.
  induction l as [|z zs IH]; simpl; intros H Hc.
  - now apply precedes_nil in H.
  - apply precedes_cons in H as [[-> Hy] | H].
    + apply insert_before; [now apply sort_In | exact Hc].
    + apply insert_precedes. now apply IH.
Qed.

(** The result is sorted for any relation the comparator decides. *)
Variable R : A -> A -> Prop.
Hypothesis R_le : forall x y, Qle_bool (compareFn x y) 0 = true -> R x y.
Hypothesis R_gt : forall x y, Qle_bool (compareFn x y) 0 = false -> R y x.
Hypothesis R_trans : forall x y z, R x y -> R y z -> R x z.

Lemma insert_sorted x l :
  StronglySorted R l -> StronglySorted R (JS.insert compareFn x l).
Proof.
  induction 1 as [|y ys Hs IH Hall]; simpl.
  - constructor; constructor.
  - destruct (Qle_bool (compareFn x y) 0) eqn:Hc.
    + constructor; [now constructor|].
      constructor; [now apply R_le|].
      rewrite Forall_forall in *. intros z Hz.
      eapply R_trans; [apply R_le; exact Hc | now apply Hall].
    + constructor; [exact IH|].
      rewrite Forall_forall in *. intros z Hz.
      apply (Permutation_in _ (insert_perm x ys)) in Hz.
      destruct Hz as [<- | Hz]; [now apply R_gt | now apply Hall].
Qed.

Lemma sort_sorted l : StronglySorted R (JS.sort compareFn l).
Proof.
  induction l; simpl; [constructor | now apply insert_sorted].
Qed.
End Sort.

Lemma StronglySorted_filter (R : A -> A -> Prop) (p : A -> bool) l :
  StronglySorted R l -> StronglySorted R (filter p l).
Proof.
  induction 1 as [|y ys Hs IH Hall]; simpl; [constructor|].
  destruct (p y); [|exact IH].
  constructor; [exact IH|].
  rewrite Forall_forall in *. intros z Hz.
  apply filter_In in Hz. now apply Hall.
Qed.
End Order.

(** ** Sizes *)

Lemma itemSize_nonneg item : 0 <= itemSize item.
Proof. unfold itemSize, JS.ceil_div4. apply Z.div_pos; lia. Qed.

Lemma sizeOf_fold l a :
  fold_left (fun total item => total + itemSize item) l a = a + sizeOf l.
Proof.
  unfold sizeOf. revert a.
  induction l as [|x xs IH]; intros a; simpl; [lia|].
  rewrite IH, (IH (itemSize x)). lia.
Qed.

Lemma sizeOf_cons x l : sizeOf (x :: l) = itemSize x + sizeOf l.
Proof. unfold sizeOf at 1. simpl. rewrite sizeOf_fold. lia. Qed.

Lemma sizeOf_app l1 l2 : sizeOf (l1 ++ l2) = sizeOf l1 + sizeOf l2.
Proof.
  induction l1 as [|x xs IH]; simpl; [reflexivity|].
  rewrite !sizeOf_cons, IH. lia.
Qed.

Lemma sizeOf_nonneg l : 0 <= sizeOf l.
Proof.
  induction l as [|x xs IH]; [reflexivity|].
  rewrite sizeOf_cons. pose proof (itemSize_nonneg x). lia.
Qed.

Lemma sizeOf_perm l1 l2 : Permutation l1 l2 -> sizeOf l1 = sizeOf l2.
Proof.
  induction 1; rewrite ?sizeOf_cons; lia.
Qed.

Lemma fold_selectItem available l s :
  fold_left (selectItem available) l s =
  mkSelection
    (keptItems s ++ kept available (currentSize s) l)
    (currentSize s + sizeOf (kept available (currentSize s) l))
    (sel_archived s
     ++ map (set_archived true) (rejected available (currentSize s) l)).
Proof.
  revert s. induction l as [|x xs IH]; intros s; simpl.
  - destruct s; simpl. rewrite !app_nil_r. f_equal. unfold sizeOf; simpl; lia.
  - rewrite IH. unfold selectItem.
    destruct (currentSize s + itemSize x <=? available); simpl.
    + rewrite <- app_assoc, sizeOf_cons. simpl. f_equal. lia.
    + now rewrite <- app_assoc.
Qed.

Lemma selectLoop_spec available regular archive :
  selectLoop available regular archive =
  mkSelection (kept available 0 regular)
    (sizeOf (kept available 0 regular))
    (archive ++ map (set_archived true) (rejected available 0 regular)).
Proof. unfold selectLoop. now rewrite fold_selectItem. Qed.

Lemma kept_rejected_perm available l : forall cur,
  Permutation (kept available cur l ++ rejected available cur l) l.
Proof.
  induction l as [|x xs IH]; intros cur; simpl; [constructor|].
  destruct (cur + itemSize x <=? available); simpl.
  - constructor. apply IH.
  - rewrite <- Permutation_middle. constructor. apply IH.
Qed.

Lemma kept_In available l : forall cur x,
  In x (kept available cur l) -> In x l.
Proof.
  intros cur x H.
  apply (Permutation_in x (kept_rejected_perm available l cur)).
  apply in_or_app. now left.
Qed.

Lemma rejected_In available l : forall cur x,
  In x (rejected available cur l) -> In x l.
Proof.
  intros cur x H.
  apply (Permutation_in x (kept_rejected_perm available l cur)).
  apply in_or_app. now right.
Qed.

(** An accepted item fits on top of the size the pass started with. *)
Lemma kept_fits available l : forall cur x,
  In x (kept available cur l) -> cur + itemSize x <= available.
Proof.
  induction l as [|y ys IH]; intros cur x; simpl; [contradiction|].
  destruct (cur + itemSize y <=? available) eqn:E.
  - intros [<- | H]; [lia|].
    apply IH in H. pose proof (itemSize_nonneg y). lia.
  - apply IH.
Qed.

Lemma kept_app available l1 l2 cur :
  kept available cur (l1 ++ l2) =
  kept available cur l1
  ++ kept available (cur + sizeOf (kept available cur l1)) l2.
Proof.
  revert cur. induction l1 as [|x xs IH]; intros cur; simpl.
  - change (sizeOf []) with 0. now rewrite Z.add_0_r.
  - destruct (cur + itemSize x <=? available); simpl.
    + now rewrite IH, sizeOf_cons, Z.add_assoc.
    + apply IH.
Qed.

Lemma rejected_app available l1 l2 cur :
  rejected available cur (l1 ++ l2) =
  rejected available cur l1
  ++ rejected available (cur + sizeOf (kept available cur l1)) l2.
Proof.
  revert cur. induction l1 as [|x xs IH]; intros cur; simpl.
  - change (sizeOf []) with 0. now rewrite Z.add_0_r.
  - destruct (cur + itemSize x <=? available); simpl.
    + now rewrite IH, sizeOf_cons, Z.add_assoc.
    + now rewrite IH.
Qed.

(** Among items of one size, an item met earlier by the pass is accepted
    whenever a later one is. *)
Lemma kept_earlier available l : forall cur x y,
  precedes x y l -> NoDup l -> itemSize x = itemSize y ->
  In y (kept available cur l) -> In x (kept available cur l).
Proof.
  induction l as [|z zs IH]; intros cur x y Hp Hnd Hs Hy.
  - now apply precedes_nil in Hp.
  - inversion Hnd as [|? ? Hz Hnd']; subst. simpl in *.
    apply precedes_cons in Hp as [[-> Hin] | Hp].
    + destruct (cur + itemSize z <=? available) eqn:E; [now left|].
      apply kept_fits in Hy. lia.
    + destruct (cur + itemSize z <=? available) eqn:E.
      * destruct Hy as [-> | Hy].
        -- exfalso. apply Hz. now apply precedes_In in Hp.
        -- right. now apply (IH _ x y).
      * now apply (IH _ x y).
Qed.

(** In a pass over items sorted by descending priority, an item of strictly
    higher priority and the same size is accepted whenever the other is. *)
Lemma kept_higher available l : forall cur a b,
  StronglySorted priorityDesc l -> In a l ->
  (priority b < priority a)%Q -> itemSize a = itemSize b ->
  In b (kept available cur l) -> In a (kept available cur l).
Proof.
  induction l as [|z zs IH]; intros cur a b Hs Ha Hlt Hsz Hb;
    [contradiction|].
  apply StronglySorted_inv in Hs as [Hs Hall]. simpl in *.
  destruct Ha as [-> | Ha].
  - destruct (cur + itemSize a <=? available) eqn:E; [now left|].
    apply kept_fits in Hb. lia.
  - destruct (cur + itemSize z <=? available) eqn:E.
    + destruct Hb as [-> | Hb].
      * exfalso. rewrite Forall_forall in Hall. apply Hall in Ha.
        unfold priorityDesc in Ha.
        apply (Qlt_irrefl (priority b)).
        eapply Qlt_le_trans; [exact Hlt | exact Ha].
      * right. now apply (IH _ a b).
    + now apply (IH _ a b).
Qed.

(** ** The comparator of [compress] and its two filters *)

Lemma byPriorityDesc_le x y :
  Qle_bool (byPriorityDesc x y) 0 = true -> priorityDesc x y.
Proof.
  unfold byPriorityDesc, priorityDesc. rewrite Qle_bool_iff. intros H.
  apply Qle_minus_iff in H. apply Qle_minus_iff.
  setoid_replace (priority x + - priority y)%Q
    with (0 + - (priority y - priority x))%Q by ring.
  exact H.
Qed.

Lemma byPriorityDesc_gt x y :
  Qle_bool (byPriorityDesc x y) 0 = false -> priorityDesc y x.
Proof.
  unfold byPriorityDesc, priorityDesc. intros H.
  destruct (Qlt_le_dec (priority x) (priority y)) as [Hlt | Hle].
  - now apply Qlt_le_weak.
  - exfalso. assert (Qle_bool (priority y - priority x) 0 = true) as E.
    { apply Qle_bool_iff. apply Qle_minus_iff.
      setoid_replace (0 + - (priority y - priority x))%Q
        with (priority x + - priority y)%Q by ring.
      now apply Qle_minus_iff in Hle. }
    congruence.
Qed.

Lemma priorityDesc_trans x y z :
  priorityDesc x y -> priorityDesc y z -> priorityDesc x z.
Proof. unfold priorityDesc. intros H1 H2. eapply Qle_trans; eauto. Qed.

Lemma byPriorityDesc_tie x y :
  (priority x == priority y)%Q -> Qle_bool (byPriorityDesc x y) 0 = true.
Proof.
  intros E. unfold byPriorityDesc. apply Qle_bool_iff. rewrite E.
  setoid_replace (priority y - priority y)%Q with 0%Q by ring.
  apply Qle_refl.
Qed.

Lemma sortedItems_sorted m : StronglySorted priorityDesc (sortedItems m).
Proof.
  apply sort_sorted.
  - apply byPriorityDesc_le.
  - apply byPriorityDesc_gt.
  - apply priorityDesc_trans.
Qed.

Lemma isCritical_negb i : isCritical i = negb (isRegular i).
Proof. reflexivity. Qed.

Lemma isRegular_iff i : isRegular i = true <-> (priority i <= 9 # 10)%Q.
Proof. unfold isRegular, JS.leq. apply Qle_bool_iff. Qed.

Lemma isCritical_iff i : isCritical i = true <-> (9 # 10 < priority i)%Q.
Proof.
  unfold isCritical, JS.gt. rewrite negb_true_iff. split.
  - intros H. apply Qnot_le_lt. intros Hle.
    apply Qle_bool_iff in Hle. congruence.
  - intros H. destruct (Qle_bool (priority i) (9 # 10)) eqn:E;
      [|reflexivity].
    apply Qle_bool_iff in E. exfalso.
    apply (Qlt_irrefl (9 # 10)). eapply Qlt_le_trans; eauto.
Qed.

Lemma isRegular_tie x y :
  (priority x == priority y)%Q -> isRegular x = isRegular y.
Proof.
  intros E. destruct (isRegular y) eqn:Hy.
  - apply isRegular_iff. rewrite E. now apply isRegular_iff.
  - destruct (isRegular x) eqn:Hx; [|reflexivity].
    apply isRegular_iff in Hx. rewrite E in Hx.
    apply isRegular_iff in Hx. congruence.
Qed.

Lemma filter_split_perm {A : Type} (p : A -> bool) l :
  Permutation (filter p l ++ filter (fun x => negb (p x)) l) l.
Proof.
  induction l as [|x xs IH]; simpl; [constructor|].
  destruct (p x); simpl.
  - now constructor.
  - rewrite <- Permutation_middle. now constructor.
Qed.

Lemma instructions_regular_perm m :
  Permutation (instructions m ++ regularItems m) (items m).
Proof.
  unfold instructions, regularItems. destruct (pinning m); simpl.
  - rewrite Permutation_app_comm.
    erewrite (filter_ext isCritical).
    + rewrite filter_split_perm. apply sort_perm.
    + intros a. apply isCritical_negb.
  - apply sort_perm.
Qed.

(** ** What [compress] does to the two arrays *)

Lemma compress_fits m :
  overCapacity m = false -> snd (compress m) = m.
Proof.
  unfold overCapacity, compress. intros H.
  apply negb_false_iff in H. now rewrite H.
Qed.

Lemma compress_over m :
  overCapacity m = true ->
  snd (compress m) =
  with_items (JS.sort instructionsFirst (instructions m ++ accepted m))
    (with_archivedItems
       (archivedItems m ++ map (set_archived true) (evicted m)) m).
Proof.
  unfold overCapacity, compress, evicted, accepted, overCapacity.
  intros H. rewrite H. apply negb_true_iff in H. rewrite H.
  now rewrite selectLoop_spec.
Qed.

Lemma compress_archivedItems m :
  archivedItems (snd (compress m)) =
  archivedItems m ++ map (set_archived true) (evicted m).
Proof.
  destruct (overCapacity m) eqn:H.
  - now rewrite compress_over.
  - rewrite compress_fits by exact H. unfold evicted. rewrite H.
    simpl. now rewrite app_nil_r.
Qed.

Lemma compress_items_over m :
  overCapacity m = true ->
  Permutation (items (snd (compress m))) (instructions m ++ accepted m).
Proof. intros H. rewrite compress_over by exact H. apply sort_perm. Qed.

Lemma compress_conserves m :
  Permutation (items (snd (compress m)) ++ evicted m) (items m).
Proof.
  destruct (overCapacity m) eqn:H.
  - rewrite compress_items_over by exact H.
    unfold evicted, accepted. rewrite H, <- app_assoc.
    rewrite kept_rejected_perm. apply instructions_regular_perm.
  - rewrite compress_fits by exact H. unfold evicted. rewrite H.
    now rewrite app_nil_r.
Qed.

Lemma compress_fields m :
  maxSize (snd (compress m)) = maxSize m /\
  preserveInstructionsAtStart (snd (compress m))
  = preserveInstructionsAtStart m /\
  instructionsContent (snd (compress m)) = instructionsContent m /\
  archiveThreshold (snd (compress m)) = archiveThreshold m /\
  idCounter (snd (compress m)) = idCounter m.
Proof.
  destruct (overCapacity m) eqn:H.
  - rewrite compress_over by exact H. now repeat split.
  - rewrite compress_fits by exact H. now repeat split.
Qed.

Lemma compress_items_In m x :
  In x (items (snd (compress m))) -> In x (items m).
Proof.
  intros H. apply (Permutation_in x (compress_conserves m)).
  apply in_or_app. now left.
Qed.

Lemma evicted_In m x : In x (evicted m) -> In x (items m).
Proof.
  intros H. apply (Permutation_in x (compress_conserves m)).
  apply in_or_app. now right.
Qed.

Lemma Permutation_filter {A : Type} (p : A -> bool) l l' :
  Permutation l l' -> Permutation (filter p l) (filter p l').
Proof.
  induction 1 as [|x l l' H IH|x y l|l l' l'' H1 IH1 H2 IH2]; simpl.
  - constructor.
  - destruct (p x); [now constructor | exact IH].
  - destruct (p x), (p y); try reflexivity. apply perm_swap.
  - now transitivity (filter p l').
Qed.

(** ** Critical items (priority > 0.9) *)

(** C1, counterexample: with an empty pinned text, [compress] on an
    over-capacity resident set moves the resident item of priority 1
    to the archive. *)
Lemma critical_item_archived_without_text :
  pinning unpinned_state = false /\
  overCapacity unpinned_state = true /\
  In critical_item (items unpinned_state) /\
  isCritical critical_item = true /\
  items (snd (compress unpinned_state)) = [] /\
  archivedItems (snd (compress unpinned_state))
  = [set_archived true critical_item].
Proof. vm_compute. repeat split; auto. Qed.

(** C1, amended: when pinning is enabled and the pinned text is non-empty,
    every resident item with priority > 0.9 is still resident after
    [compress], and every item that the run appends to the archive is a
    resident item with priority <= 0.9. *)
Theorem critical_items_kept_when_pinning m :
  pinning m = true ->
  (forall item, In item (items m) -> isCritical item = true ->
                In item (items (snd (compress m)))) /\
  exists moved,
    archivedItems (snd (compress m))
    = archivedItems m ++ map (set_archived true) moved /\
    forall r, In r moved -> In r (items m) /\ isCritical r = false.
Proof.
  intros Hpin. split.
  - intros item Hin Hc. destruct (overCapacity m) eqn:Hov.
    + apply (Permutation_in item
               (Permutation_sym (compress_items_over m Hov))).
      apply in_or_app. left. unfold instructions. rewrite Hpin.
      apply filter_In. split; [|exact Hc].
      now apply sort_In.
    + now rewrite compress_fits.
  - exists (evicted m). split; [apply compress_archivedItems|].
    intros r Hr. split; [now apply evicted_In|].
    unfold evicted in Hr. destruct (overCapacity m); [|contradiction].
    apply rejected_In in Hr. unfold regularItems in Hr. rewrite Hpin in Hr.
    apply filter_In in Hr as [_ Hr]. rewrite isCritical_negb, Hr.
    reflexivity.
Qed.

Lemma critical_items_kept_when_pinning_witness :
  pinning pinned_state = true /\
  ((forall item, In item (items pinned_state) -> isCritical item = true ->
                 In item (items (snd (compress pinned_state)))) /\
   exists moved,
     archivedItems (snd (compress pinned_state))
     = archivedItems pinned_state ++ map (set_archived true) moved /\
     forall r, In r moved -> In r (items pinned_state) /\
                             isCritical r = false).
Proof.
  split; [reflexivity|].
  apply (critical_items_kept_when_pinning pinned_state). reflexivity.
Defined.

(** ** Space available for regular items *)

Lemma compress_setInstructions text m :
  pinning m = true -> JS.truthy text = true ->
  snd (compress (setInstructions text m))
  = setInstructions text (snd (compress m)).
Proof.
  intros Hpin Htext.
  assert (pinning (setInstructions text m) = true) as Hpin'.
  { unfold pinning in *. simpl. rewrite Htext.
    apply andb_true_iff in Hpin as [-> _]. reflexivity. }
  unfold compress, getCurrentSize, availableSize, instructionsSize,
    instructions, regularItems, sortedItems.
  rewrite Hpin, Hpin'. simpl.
  destruct (sizeOf (items m) <=? maxSize m); reflexivity.
Qed.

(** C2, counterexample: capacity 3 and a pinned text of estimated size 2.
    The space available to regular items is 3, not 3 - 2 = 1, and the item
    of size 2 is kept. *)
Lemma pinned_text_size_not_subtracted :
  let m := with_maxSize 3 pinned_two_items in
  pinning m = true /\
  JS.ceil_div4 (String.length (instructionsContent m)) = 2 /\
  overCapacity m = true /\
  availableSize m = 3 /\
  availableSize m
  <> maxSize m - JS.ceil_div4 (String.length (instructionsContent m)) /\
  items (setMaxSize 3 pinned_two_items) = [item_a].
Proof. vm_compute. repeat split; auto; discriminate. Qed.

(** C2, amended: with pinning enabled and a non-empty pinned text, the
    space available for regular items is the capacity minus the total
    estimated size of the resident items with priority > 0.9; the size of
    the pinned text is not subtracted, and replacing the text by any other
    non-empty text changes neither array produced by [compress]. *)
Theorem available_space_when_pinning m :
  pinning m = true ->
  availableSize m = maxSize m - sizeOf (filter isCritical (items m)) /\
  forall text, JS.truthy text = true ->
    items (snd (compress (setInstructions text m)))
    = items (snd (compress m)) /\
    archivedItems (snd (compress (setInstructions text m)))
    = archivedItems (snd (compress m)).
Proof.
  intros Hpin. split.
  - unfold availableSize, instructionsSize, instructions. rewrite Hpin.
    f_equal. apply sizeOf_perm, Permutation_filter, sort_perm.
  - intros text Htext.
    now rewrite compress_setInstructions.
Qed.

Lemma available_space_when_pinning_witness :
  let m := with_maxSize 3 pinned_two_items in
  pinning m = true /\
  (availableSize m = maxSize m - sizeOf (filter isCritical (items m)) /\
   forall text, JS.truthy text = true ->
     items (snd (compress (setInstructions text m)))
     = items (snd (compress m)) /\
     archivedItems (snd (compress (setInstructions text m)))
     = archivedItems (snd (compress m))).
Proof.
  split; [reflexivity|].
  apply (available_space_when_pinning (with_maxSize 3 pinned_two_items)).
  reflexivity.
Defined.

(** ** The packing pass *)

(** C3, counterexample: with capacity 3 the pass meets the items of sizes
    2, 5 and 1 in that order; the second overflows and is archived, and the
    third, later in sort order, is kept. *)
Lemma later_smaller_item_backfilled :
  let m := with_maxSize 3 three_items in
  overCapacity m = true /\
  regularItems m = [small_first; large_second; small_third] /\
  availableSize m = 3 /\
  (itemSize small_first + itemSize large_second <=? availableSize m)
  = false /\
  In small_third (items (snd (compress m))) /\
  archivedItems (snd (compress m)) = [set_archived true large_second].
Proof. vm_compute. repeat split; auto. Qed.

(** C3, amended: in the packing pass each regular item, in priority-sorted
    order, is kept exactly when the running size of the regular items kept
    before it plus its own size is at most the available space, and is
    archived otherwise; a rejection does not end the pass: the items after
    a rejected item are decided as if that item were absent, so a later
    item that fits is kept. *)
Theorem packing_pass_is_first_fit m l1 x l2 :
  overCapacity m = true ->
  regularItems m = l1 ++ x :: l2 ->
  let before := selectLoop (availableSize m) l1 (archivedItems m) in
  let without := selectLoop (availableSize m) (l1 ++ l2) (archivedItems m) in
  currentSize before = sizeOf (keptItems before) /\
  (currentSize before + itemSize x <= availableSize m ->
   In x (items (snd (compress m)))) /\
  (availableSize m < currentSize before + itemSize x ->
   In (set_archived true x) (archivedItems (snd (compress m))) /\
   Permutation (items (snd (compress m)))
     (instructions m ++ keptItems without)).
Proof.
  intros Hov Hreg before without. subst before without.
  rewrite !selectLoop_spec. simpl. split; [reflexivity|].
  assert (accepted m =
          kept (availableSize m) 0 l1
          ++ kept (availableSize m)
               (sizeOf (kept (availableSize m) 0 l1)) (x :: l2)) as Hacc.
  { unfold accepted. now rewrite Hreg, kept_app. }
  assert (evicted m =
          rejected (availableSize m) 0 l1
          ++ rejected (availableSize m)
               (sizeOf (kept (availableSize m) 0 l1)) (x :: l2)) as Hev.
  { unfold evicted. now rewrite Hov, Hreg, rejected_app. }
  simpl in Hacc, Hev. split.
  - intros Hfit. apply Z.leb_le in Hfit. rewrite Hfit in Hacc.
    apply (Permutation_in x (Permutation_sym (compress_items_over m Hov))).
    rewrite Hacc. apply in_or_app. right. apply in_or_app. right. now left.
  - intros Hno. apply Z.leb_gt in Hno. rewrite Hno in Hacc, Hev. split.
    + rewrite compress_archivedItems, Hev.
      apply in_or_app. right. apply in_map.
      apply in_or_app. right. now left.
    + rewrite compress_items_over by exact Hov.
      now rewrite Hacc, kept_app.
Qed.

Lemma packing_pass_is_first_fit_witness :
  let m := with_maxSize 3 three_items in
  overCapacity m = true /\
  regularItems m = [small_first] ++ large_second :: [small_third] /\
  let before := selectLoop (availableSize m) [small_first] (archivedItems m) in
  let without :=
    selectLoop (availableSize m) ([small_first] ++ [small_third])
      (archivedItems m) in
  currentSize before = sizeOf (keptItems before) /\
  (currentSize before + itemSize large_second <= availableSize m ->
   In large_second (items (snd (compress m)))) /\
  (availableSize m < currentSize before + itemSize large_second ->
   In (set_archived true large_second) (archivedItems (snd (compress m))) /\
   Permutation (items (snd (compress m)))
     (instructions m ++ keptItems without)).
Proof.
  split; [reflexivity|]. split; [reflexivity|].
  apply (packing_pass_is_first_fit (with_maxSize 3 three_items)
           [small_first] large_second [small_third]); reflexivity.
Defined.

(** ** Priority order and ties in [compress] *)

Lemma regularItems_sorted m : StronglySorted priorityDesc (regularItems m).
Proof.
  unfold regularItems. destruct (pinning m).
  - apply StronglySorted_filter, sortedItems_sorted.
  - apply sortedItems_sorted.
Qed.

Lemma instructions_critical m x :
  In x (instructions m) -> isCritical x = true.
Proof.
  unfold instructions. destruct (pinning m); [|contradiction].
  intros H. now apply filter_In in H.
Qed.

(** Every resident item is either one of the [instructions] or one of the
    [regularItems]; the latter when it is not critical. *)
Lemma items_split m x :
  In x (items m) -> In x (instructions m) \/ In x (regularItems m).
Proof.
  intros H. apply in_app_or.
  now apply (Permutation_in x
               (Permutation_sym (instructions_regular_perm m))).
Qed.

Lemma compress_higher_priority_kept m a b :
  In a (items m) ->
  (priority b < priority a)%Q -> itemSize a = itemSize b ->
  In b (items (snd (compress m))) -> In a (items (snd (compress m))).
Proof.
  intros Ha Hlt Hsz Hb. destruct (overCapacity m) eqn:Hov.
  2: now rewrite compress_fits.
  pose proof (compress_items_over m Hov) as Hperm.
  apply (Permutation_in a (Permutation_sym Hperm)).
  apply (Permutation_in b Hperm) in Hb.
  apply in_or_app. apply items_split in Ha as [Ha | Ha]; [now left|].
  apply in_app_or in Hb as [Hb | Hb].
  - (* [b] critical: then so is [a], which is not among the regular items *)
    exfalso. pose proof (instructions_critical m b Hb) as Hcb.
    unfold instructions in Hb. unfold regularItems in Ha.
    destruct (pinning m); [|contradiction].
    apply filter_In in Ha as [_ Hra].
    apply isCritical_iff in Hcb. apply isRegular_iff in Hra.
    apply (Qlt_irrefl (9 # 10)).
    eapply Qlt_le_trans; [|exact Hra].
    eapply Qlt_trans; eauto.
  - right. unfold accepted in *.
    eapply kept_higher; eauto. apply regularItems_sorted.
Qed.

(** C8: for two regular (priority <= 0.9) resident items [a] and [b] with
    [priority a > priority b] and equal estimated size, if [b] is resident
    after [compress] then so is [a]. *)
Theorem priority_monotonicity m a b :
  In a (items m) -> In b (items m) ->
  isCritical a = false -> isCritical b = false ->
  (priority b < priority a)%Q -> itemSize a = itemSize b ->
  In b (items (snd (compress m))) -> In a (items (snd (compress m))).
Proof.
  intros Ha _ _ _. now apply compress_higher_priority_kept.
Qed.

Lemma priority_monotonicity_witness :
  In item_z (items twin_overfull) /\ In twin_y (items twin_overfull) /\
  isCritical item_z = false /\ isCritical twin_y = false /\
  (priority twin_y < priority item_z)%Q /\
  itemSize item_z = itemSize twin_y /\
  In twin_y (items (snd (compress twin_overfull))) /\
  In item_z (items (snd (compress twin_overfull))).
Proof.
  assert (In item_z (items twin_overfull)) as Ha
    by (right; right; now left).
  assert (In twin_y (items twin_overfull)) as Hb by (now left).
  assert (priority twin_y < priority item_z)%Q as Hlt by reflexivity.
  assert (In twin_y (items (snd (compress twin_overfull)))) as Hk
    by (right; now left).
  split; [exact Ha|]. split; [exact Hb|].
  split; [reflexivity|]. split; [reflexivity|].
  split; [exact Hlt|]. split; [reflexivity|]. split; [exact Hk|].
  exact (priority_monotonicity twin_overfull item_z twin_y Ha Hb
           eq_refl eq_refl Hlt eq_refl Hk).
Defined.

Lemma sortedItems_NoDup m : NoDup (items m) -> NoDup (sortedItems m).
Proof.
  apply Permutation_NoDup, Permutation_sym, sort_perm.
Qed.

Lemma sortedItems_precedes m x y :
  precedes x y (items m) -> (priority x == priority y)%Q ->
  precedes x y (sortedItems m).
Proof.
  intros Hp Heq. apply sort_stable; [exact Hp|].
  now apply byPriorityDesc_tie.
Qed.

(** C9, counterexample: X and Y are inserted in that order with the same
    priority and size.  The third insertion triggers a compaction that
    keeps both and leaves the resident array as [Y; X]; the fourth
    insertion triggers a compaction that can keep only one of them, and it
    keeps Y and archives X. *)
Lemma later_inserted_twin_kept :
  (priority twin_x == priority twin_y)%Q /\
  itemSize twin_x = itemSize twin_y /\
  items (run twin_options (firstn 2 twin_calls)) = [twin_x; twin_y] /\
  items (run twin_options (firstn 3 twin_calls)) = [twin_y; twin_x] /\
  items (run twin_options twin_calls) = [item_z; twin_y] /\
  archivedItems (run twin_options twin_calls)
  = [set_archived true item_w; set_archived true twin_x].
Proof. vm_compute. repeat split; reflexivity. Qed.

(** C9, amended: items of equal priority are considered in the order in
    which they stand in the resident array when [compress] runs (the sort
    is stable): for two distinct resident items X and Y of identical
    priority and estimated size with X before Y in the resident array, if Y
    is resident after [compress] then so is X.  The resident array, which
    holds no item twice, need not be in insertion order: a compaction
    rewrites it. *)
Theorem earlier_of_equal_items_kept m x y :
  NoDup (items m) -> precedes x y (items m) ->
  (priority x == priority y)%Q -> itemSize x = itemSize y ->
  In y (items (snd (compress m))) -> In x (items (snd (compress m))).
Proof.
  intros Hnd Hp Heq Hsz Hy. destruct (overCapacity m) eqn:Hov.
  2: { rewrite compress_fits by exact Hov. now apply precedes_In in Hp. }
  pose proof (compress_items_over m Hov) as Hperm.
  apply (Permutation_in x (Permutation_sym Hperm)).
  apply (Permutation_in y Hperm) in Hy.
  pose proof (sortedItems_precedes m x y Hp Heq) as Hps.
  pose proof (sortedItems_NoDup m Hnd) as Hnds.
  apply in_or_app. apply in_app_or in Hy.
  unfold accepted, instructions, regularItems in *.
  destruct (pinning m).
  - destruct (isRegular x) eqn:Hrx.
    + assert (isRegular y = true) as Hry
        by (now rewrite <- (isRegular_tie x y Heq)).
      destruct Hy as [Hy | Hy].
      * apply filter_In in Hy as [_ Hy].
        rewrite isCritical_negb, Hry in Hy. discriminate.
      * right. apply (kept_earlier _ _ _ x y); try assumption.
        -- now apply precedes_filter.
        -- now apply NoDup_filter.
    + left. apply filter_In. split.
      * now apply precedes_In in Hps.
      * now rewrite isCritical_negb, Hrx.
  - destruct Hy as [[] | Hy]. right.
    now apply (kept_earlier _ _ _ x y).
Qed.

Lemma earlier_of_equal_items_kept_witness :
  NoDup (items twin_overfull_w) /\
  precedes twin_x twin_y (items twin_overfull_w) /\
  (priority twin_x == priority twin_y)%Q /\
  itemSize twin_x = itemSize twin_y /\
  In twin_y (items (snd (compress twin_overfull_w))) /\
  In twin_x (items (snd (compress twin_overfull_w))).
Proof.
  assert (NoDup (items twin_overfull_w)) as Hnd.
  { repeat constructor; simpl; intuition discriminate. }
  assert (precedes twin_x twin_y (items twin_overfull_w)) as Hp
    by (now exists [], [], [item_w]).
  assert (priority twin_x == priority twin_y)%Q as Heq by reflexivity.
  assert (In twin_y (items (snd (compress twin_overfull_w)))) as Hk
    by (now left).
  split; [exact Hnd|]. split; [exact Hp|]. split; [exact Heq|].
  split; [reflexivity|]. split; [exact Hk|].
  exact (earlier_of_equal_items_kept twin_overfull_w twin_x twin_y Hnd
           Hp Heq eq_refl Hk).
Defined.

(** ** Identifiers *)

Lemma decimal_inj a b : JS.decimal a = JS.decimal b -> a = b.
Proof.
  unfold JS.decimal. intros H.
  assert (Some (Nat.to_uint a) = Some (Nat.to_uint b)) as E
    by (now rewrite <- !NilEmpty.usu, H).
  injection E as E.
  now rewrite <- (Unsigned.of_to a), <- (Unsigned.of_to b), E.
Qed.

Lemma ids_app l1 l2 : ids (l1 ++ l2) = ids l1 ++ ids l2.
Proof. apply map_app. Qed.

Lemma ids_set_archived b l : ids (map (set_archived b) l) = ids l.
Proof. unfold ids. rewrite map_map. now apply map_ext. Qed.

Lemma ids_perm l1 l2 : Permutation l1 l2 -> Permutation (ids l1) (ids l2).
Proof. apply Permutation_map. Qed.

Lemma ids_updateFirst pred p l :
  ids (updateFirst pred (set_priority p) l) = ids l.
Proof.
  induction l as [|x xs IH]; simpl; [reflexivity|].
  destruct (pred x); simpl; [reflexivity | now rewrite IH].
Qed.

Lemma NoDup_app_disjoint {A : Type} (l1 l2 : list A) x :
  NoDup (l1 ++ l2) -> In x l1 -> ~ In x l2.
Proof.
  induction l1 as [|y ys IH]; simpl; [contradiction|].
  intros Hnd [-> | Hin] H2; inversion Hnd as [|? ? Hy Hnd']; subst.
  - apply Hy. apply in_or_app. now right.
  - now apply (IH Hnd' Hin).
Qed.

Lemma issued_mono n n' s : (n <= n')%nat -> issued n s -> issued n' s.
Proof. intros Hle (k & Hk & ->). exists k. split; [lia | reflexivity]. Qed.

(** A state whose identifiers are drawn, without repetition, from those of
    a well-formed state is well formed. *)
Lemma wf_sub m m' extra :
  Permutation (all_ids m' ++ extra) (all_ids m) ->
  (idCounter m <= idCounter m')%nat -> wf m -> wf m'.
Proof.
  intros Hperm Hle [Hnd Hall]. split.
  - apply (Permutation_NoDup (Permutation_sym Hperm)) in Hnd.
    now apply NoDup_app_remove_r in Hnd.
  - rewrite Forall_forall in *. intros s Hs.
    apply (issued_mono (idCounter m)); [exact Hle|].
    apply Hall. apply (Permutation_in s Hperm).
    apply in_or_app. now left.
Qed.

Lemma wf_same m m' :
  Permutation (all_ids m') (all_ids m) ->
  (idCounter m <= idCounter m')%nat -> wf m -> wf m'.
Proof.
  intros Hperm. apply (wf_sub m m' []). now rewrite app_nil_r.
Qed.

Lemma compress_all_ids m :
  Permutation (all_ids (snd (compress m))) (all_ids m).
Proof.
  unfold all_ids. rewrite compress_archivedItems, ids_app, ids_set_archived.
  rewrite <- (ids_perm _ _ (compress_conserves m)), ids_app.
  rewrite <- !app_assoc. apply Permutation_app_head.
  apply Permutation_app_comm.
Qed.

Lemma wf_compress m : wf m -> wf (snd (compress m)).
Proof.
  apply wf_same; [apply compress_all_ids|].
  destruct (compress_fields m) as (_ & _ & _ & _ & ->). lia.
Qed.

Lemma wf_constructor options : wf (constructor options).
Proof. split; constructor. Qed.

Lemma newId_fresh m : wf m -> ~ In (newId m) (all_ids m).
Proof.
  intros [_ Hall] Hin. rewrite Forall_forall in Hall.
  apply Hall in Hin as (k & Hk & E). unfold newId in E.
  injection E as E. apply decimal_inj in E. lia.
Qed.

Lemma wf_addItem c p now m : wf m -> wf (snd (addItem c p now m)).
Proof.
  intros Hwf. unfold addItem. simpl. apply wf_compress.
  pose proof (newId_fresh m Hwf) as Hfresh. destruct Hwf as [Hnd Hall].
  assert (Permutation
            (ids (items m ++ [mkItem (newId m) c
                                match p with Some q => q | None => 1 # 2 end
                                now false])
             ++ ids (archivedItems m))
            (newId m :: all_ids m)) as Hperm.
  { rewrite ids_app. simpl. rewrite <- app_assoc. simpl.
    symmetry. apply Permutation_middle. }
  split; unfold all_ids at 1; simpl.
  - apply (Permutation_NoDup (Permutation_sym Hperm)).
    now constructor.
  - apply (Permutation_Forall (Permutation_sym Hperm)). constructor.
    + exists (S (idCounter m)). split; [lia | reflexivity].
    + rewrite Forall_forall in *. intros s Hs.
      apply (issued_mono (idCounter m)); [lia | now apply Hall].
Qed.

Lemma wf_updatePriority itemId p m :
  wf m -> wf (snd (updatePriority itemId p m)).
Proof.
  unfold updatePriority. destruct (find (hasId itemId) (items m));
    simpl; [|trivial].
  apply wf_same; [|simpl; lia].
  unfold all_ids. simpl. now rewrite ids_updateFirst.
Qed.

(** ** [findIndex], [splice] and the flags of [archiveLowPriority] *)

Lemma splice1_nil {A : Type} i : JS.splice1 i (@nil A) = [].
Proof. unfold JS.splice1. now rewrite firstn_nil, skipn_nil. Qed.

Lemma splice1_sub {A : Type} (l : list A) : forall i,
  exists extra, Permutation (JS.splice1 i l ++ extra) l.
Proof.
  induction l as [|x xs IH]; intros i.
  - exists []. now rewrite splice1_nil.
  - destruct i as [|i].
    + exists [x]. unfold JS.splice1. simpl.
      symmetry. apply Permutation_cons_append.
    + destruct (IH i) as [extra Hperm]. exists extra.
      unfold JS.splice1 in *. simpl. now constructor.
Qed.

Lemma splice1_nth {A : Type} (l : list A) : forall i x,
  nth_error l i = Some x -> Permutation (x :: JS.splice1 i l) l.
Proof.
  induction l as [|y ys IH]; intros i x H.
  - now destruct i.
  - destruct i as [|i]; simpl in H.
    + injection H as ->. reflexivity.
    + unfold JS.splice1 in *. simpl. rewrite perm_swap.
      constructor. now apply IH.
Qed.

Lemma findIndex_nth {A : Type} (pred : A -> bool) l : forall i,
  JS.findIndex pred l = Some i ->
  exists x, nth_error l i = Some x /\ pred x = true.
Proof.
  induction l as [|y ys IH]; intros i; simpl; [discriminate|].
  destruct (pred y) eqn:E.
  - intros H. injection H as <-. now exists y.
  - destruct (JS.findIndex pred ys) as [j|]; simpl; [|discriminate].
    intros H. injection H as <-. now apply IH.
Qed.

Lemma findIndex_none {A : Type} (pred : A -> bool) l :
  (forall x, In x l -> pred x = false) -> JS.findIndex pred l = None.
Proof.
  induction l as [|y ys IH]; intros H; simpl; [reflexivity|].
  rewrite (H y) by now left.
  rewrite IH; [reflexivity|]. intros x Hx. apply H. now right.
Qed.

Lemma find_absent {A : Type} (pred : A -> bool) l :
  (forall x, In x l -> pred x = false) -> find pred l = None.
Proof.
  induction l as [|y ys IH]; intros H; simpl; [reflexivity|].
  rewrite (H y) by now left. apply IH. intros x Hx. apply H. now right.
Qed.

Lemma hasId_absent itemId l :
  ~ In itemId (ids l) -> forall x, In x l -> hasId itemId x = false.
Proof.
  intros Hno x Hx. unfold hasId. apply String.eqb_neq. intros E.
  apply Hno. rewrite <- E. now apply in_map.
Qed.

Lemma flagged_sub (below : ContextItem -> bool) l :
  exists extra,
    Permutation
      (ids (filter (fun item => negb (archived item))
              (map (fun item =>
                      if below item then set_archived true item else item)
                 l))
       ++ ids (map (set_archived true) (filter below l)) ++ extra)
      (ids l).
Proof.
  induction l as [|x xs IH]; [now exists []|].
  destruct IH as [extra IH]. simpl. destruct (below x) eqn:Hb; simpl.
  - exists extra. rewrite <- Permutation_middle. now constructor.
  - destruct (archived x); simpl.
    + exists (id x :: extra). rewrite app_assoc, <- Permutation_middle.
      rewrite <- app_assoc. now constructor.
    + exists extra. now constructor.
Qed.

Lemma wf_removeItem itemId m : wf m -> wf (snd (removeItem itemId m)).
Proof.
  unfold removeItem.
  destruct (JS.findIndex (hasId itemId) (items m)) as [index|]; simpl;
    [|trivial].
  destruct (splice1_sub (items m) index) as [extra Hperm].
  apply (wf_sub m _ (ids extra)); [|simpl; lia].
  unfold all_ids. simpl.
  rewrite <- (ids_perm _ _ Hperm), ids_app, <- !app_assoc.
  apply Permutation_app_head, Permutation_app_comm.
Qed.

Lemma wf_restoreItem itemId m : wf m -> wf (snd (restoreItem itemId m)).
Proof.
  unfold restoreItem.
  destruct (JS.findIndex (hasId itemId) (archivedItems m)) as [index|];
    simpl; [|trivial].
  destruct (nth_error (archivedItems m) index) as [item|] eqn:Hnth;
    simpl; [|trivial].
  intros Hwf. apply wf_compress. revert Hwf.
  apply wf_same; [|simpl; lia].
  unfold all_ids. simpl.
  rewrite <- (ids_perm _ _ (splice1_nth _ _ _ Hnth)).
  rewrite ids_app, <- app_assoc. apply Permutation_app_head. simpl.
  reflexivity.
Qed.

Lemma wf_archiveLowPriority m : wf m -> wf (snd (archiveLowPriority m)).
Proof.
  unfold archiveLowPriority. simpl.
  destruct (flagged_sub (belowThreshold m) (items m)) as [extra Hperm].
  apply (wf_sub m _ extra); [|simpl; lia].
  unfold all_ids. simpl. rewrite <- Hperm, ids_app, <- !app_assoc.
  apply Permutation_app_head. rewrite (app_assoc _ extra).
  apply Permutation_app_comm.
Qed.

Lemma wf_clear m : wf m -> wf (clear m).
Proof. apply (wf_sub m _ (all_ids m)); [reflexivity | simpl; lia]. Qed.

Lemma wf_clearArchived m : wf m -> wf (clearArchived m).
Proof.
  apply (wf_sub m _ (ids (archivedItems m))); [|simpl; lia].
  unfold all_ids. simpl. now rewrite app_nil_r.
Qed.

Lemma wf_setMaxSize size m : wf m -> wf (setMaxSize size m).
Proof. intros Hwf. unfold setMaxSize. now apply wf_compress. Qed.

Lemma wf_setInstructions text m : wf m -> wf (setInstructions text m).
Proof. trivial. Qed.

Lemma wf_summarizeArchived n m : wf m -> wf (snd (summarizeArchived n m)).
Proof.
  assert (wf m ->
          wf (with_archivedItems
                (JS.sort byTimestampDesc (archivedItems m)) m)) as H.
  { apply wf_same; [|simpl; lia]. unfold all_ids. simpl.
    apply Permutation_app_head, ids_perm, sort_perm. }
  unfold summarizeArchived.
  destruct (JS.slice0 _ _); exact H.
Qed.

Lemma wf_call m c : wf m -> wf (call m c).
Proof.
  destruct c; simpl.
  - apply wf_addItem.
  - apply wf_updatePriority.
  - apply wf_removeItem.
  - apply wf_restoreItem.
  - apply wf_archiveLowPriority.
  - apply wf_compress.
  - apply wf_clear.
  - apply wf_clearArchived.
  - apply wf_setMaxSize.
  - apply wf_setInstructions.
  - apply wf_summarizeArchived.
Qed.

Lemma wf_fold calls : forall m, wf m -> wf (fold_left call calls m).
Proof.
  induction calls as [|c cs IH]; intros m Hwf; simpl; [exact Hwf|].
  now apply IH, wf_call.
Qed.

Lemma reachable_wf m : reachable m -> wf m.
Proof.
  intros (options & calls & ->). apply wf_fold, wf_constructor.
Qed.

Lemma wf_disjoint m itemId :
  wf m -> In itemId (ids (items m)) -> ~ In itemId (ids (archivedItems m)).
Proof. intros [Hnd _]. now apply NoDup_app_disjoint. Qed.

(** The resident array of a reachable state holds no item twice. *)
Lemma reachable_items_NoDup m : reachable m -> NoDup (items m).
Proof.
  intros Hr. apply reachable_wf in Hr as [Hnd _].
  apply NoDup_app_remove_r in Hnd. now apply NoDup_map_inv in Hnd.
Qed.

(** ** Disjointness of the two arrays *)

(** C4: in every state reached from the constructor by any sequence of
    calls (addItem, updatePriority, removeItem, restoreItem,
    archiveLowPriority, compress, clear, clearArchived, and also setMaxSize,
    setInstructions, summarizeArchived), no identifier is in both the
    resident array and the archive. *)
Theorem resident_and_archive_disjoint m itemId :
  reachable m ->
  In itemId (ids (items m)) -> ~ In itemId (ids (archivedItems m)).
Proof. intros Hr. apply wf_disjoint. now apply reachable_wf. Qed.

Lemma resident_and_archive_disjoint_witness :
  let m := run twin_options twin_calls in
  reachable m /\ In "ctx_2"%string (ids (items m)) /\
  ~ In "ctx_2"%string (ids (archivedItems m)).
Proof.
  assert (reachable (run twin_options twin_calls)) as Hr
    by (now exists twin_options, twin_calls).
  assert (In "ctx_2"%string (ids (items (run twin_options twin_calls))))
    as Hin by (right; now left).
  split; [exact Hr|]. split; [exact Hin|].
  exact (resident_and_archive_disjoint _ _ Hr Hin).
Defined.

(** ** Calls on identifiers that are not found *)

Lemma updatePriority_not_found itemId p m :
  ~ In itemId (ids (items m)) -> updatePriority itemId p m = (false, m).
Proof.
  intros H. unfold updatePriority.
  now rewrite (find_absent _ _ (hasId_absent _ _ H)).
Qed.

Lemma removeItem_not_found itemId m :
  ~ In itemId (ids (items m)) -> removeItem itemId m = (false, m).
Proof.
  intros H. unfold removeItem.
  now rewrite (findIndex_none _ _ (hasId_absent _ _ H)).
Qed.

Lemma restoreItem_not_found itemId m :
  ~ In itemId (ids (archivedItems m)) -> restoreItem itemId m = (false, m).
Proof.
  intros H. unfold restoreItem.
  now rewrite (findIndex_none _ _ (hasId_absent _ _ H)).
Qed.

(** C7: in every reachable state, [updatePriority] and [removeItem] on an
    identifier that is not resident (unknown, or archived), and
    [restoreItem] on an identifier that is not archived (unknown, or
    resident), return [false] and leave the state, hence both arrays,
    unchanged.  The methods are total functions: no call throws. *)
Theorem not_found_returns_false m itemId p :
  reachable m ->
  (~ In itemId (ids (items m)) ->
   updatePriority itemId p m = (false, m) /\
   removeItem itemId m = (false, m)) /\
  (~ In itemId (ids (archivedItems m)) ->
   restoreItem itemId m = (false, m)) /\
  (In itemId (ids (items m)) -> restoreItem itemId m = (false, m)) /\
  (In itemId (ids (archivedItems m)) ->
   updatePriority itemId p m = (false, m) /\
   removeItem itemId m = (false, m)).
Proof.
  intros Hr. apply reachable_wf in Hr.
  assert (In itemId (ids (archivedItems m)) ->
          ~ In itemId (ids (items m))) as Hdis.
  { intros Ha Hi. now apply (wf_disjoint m itemId Hr Hi). }
  repeat split.
  - now apply updatePriority_not_found.
  - now apply removeItem_not_found.
  - apply restoreItem_not_found.
  - intros Hi. apply restoreItem_not_found. now apply wf_disjoint.
  - now apply updatePriority_not_found, Hdis.
  - now apply removeItem_not_found, Hdis.
Qed.

Lemma not_found_returns_false_witness :
  let m := run twin_options twin_calls in
  reachable m /\
  In "ctx_2"%string (ids (items m)) /\
  In "ctx_1"%string (ids (archivedItems m)) /\
  restoreItem "ctx_2" m = (false, m) /\
  updatePriority "ctx_1" (3 # 2) m = (false, m) /\
  removeItem "ctx_1" m = (false, m) /\
  restoreItem "ctx_9" m = (false, m).
Proof.
  assert (reachable (run twin_options twin_calls)) as Hr
    by (now exists twin_options, twin_calls).
  assert (In "ctx_2"%string (ids (items (run twin_options twin_calls))))
    as Hin by (right; now left).
  assert (In "ctx_1"%string
            (ids (archivedItems (run twin_options twin_calls))))
    as Har by (right; now left).
  assert (~ In "ctx_9"%string
            (ids (archivedItems (run twin_options twin_calls))))
    as Hno by (simpl; intuition discriminate).
  split; [exact Hr|]. split; [exact Hin|]. split; [exact Har|].
  destruct (not_found_returns_false _ "ctx_2"%string (3 # 2) Hr)
    as (_ & _ & H2 & _).
  destruct (not_found_returns_false _ "ctx_1"%string (3 # 2) Hr)
    as (_ & _ & _ & H1).
  destruct (not_found_returns_false _ "ctx_9"%string (3 # 2) Hr)
    as (_ & H9 & _).
  split; [exact (H2 Hin)|]. split; [exact (proj1 (H1 Har))|].
  split; [exact (proj2 (H1 Har))|]. exact (H9 Hno).
Defined.

(** ** [restoreItem] *)

Lemma restoreItem_found itemId m index item :
  JS.findIndex (hasId itemId) (archivedItems m) = Some index ->
  nth_error (archivedItems m) index = Some item ->
  restoreItem itemId m
  = (true,
     snd (compress
            (with_items (items m ++ [set_archived false item])
               (with_archivedItems
                  (JS.splice1 index (archivedItems m)) m)))).
Proof. intros Hi Hn. unfold restoreItem. now rewrite Hi, Hn. Qed.

(** ** [summarizeArchived] *)

Lemma summarizeArchived_state n m :
  snd (summarizeArchived n m)
  = with_archivedItems (JS.sort byTimestampDesc (archivedItems m)) m.
Proof. unfold summarizeArchived. now destruct (JS.slice0 _ _). Qed.

Lemma summarizeArchived_items n m :
  items (snd (summarizeArchived n m)) = items m.
Proof. now rewrite summarizeArchived_state. Qed.

Lemma summarizeArchived_archive_perm n m :
  Permutation (archivedItems (snd (summarizeArchived n m))) (archivedItems m).
Proof. rewrite summarizeArchived_state. apply sort_perm. Qed.

Lemma summarizeArchived_empty n m :
  archivedItems m = [] -> summarizeArchived n m = (noArchived, m).
Proof.
  intros H. unfold summarizeArchived. rewrite H. simpl.
  replace (JS.slice0 _ []) with (@nil ContextItem).
  - destruct m; simpl in *. now subst.
  - unfold JS.slice0. destruct (_ <? 0); now rewrite firstn_nil.
Qed.

(** C6, the code at the failing input: the archive holds the item created
    at time 1 before the one created at time 2; after
    [summarizeArchived()] the field [archivedItems] holds them in the
    opposite order. *)
Theorem summarizeArchived_reorders_archive :
  reachable two_archived /\
  archivedItems two_archived = [archived_a; archived_b] /\
  archivedItems (snd (summarizeArchived None two_archived))
  = [archived_b; archived_a] /\
  snd (summarizeArchived None two_archived) <> two_archived.
Proof.
  split.
  - now exists (mkOptions 1 None None None),
      [CAddItem "aaaaaaaa" (Some (1 # 2)) date1;
       CAddItem "bbbbbbbb" (Some (1 # 2)) date2].
  - vm_compute. repeat split; try reflexivity. discriminate.
Qed.

(** ** Priorities *)

Lemma clamp_inRange p : inRange (clamp p).
Proof.
  unfold inRange, clamp, JS.Math_max, JS.Math_min.
  destruct (Qle_bool 1 p) eqn:E1.
  - assert (Qle_bool 0 1 = true) as -> by reflexivity.
    split; [discriminate | apply Qle_refl].
  - destruct (Qle_bool 0 p) eqn:E0.
    + split; [now apply Qle_bool_iff|].
      apply Qlt_le_weak, Qnot_le_lt. intros H.
      apply Qle_bool_iff in H. congruence.
    + split; [apply Qle_refl | discriminate].
Qed.

Lemma clamp_examples : clamp (3 # 2) = 1%Q /\ clamp (- (1 # 2)) = 0%Q.
Proof. split; reflexivity. Qed.

Lemma addItem_priority c p now m :
  priority (fst (addItem c (Some p) now m)) = p.
Proof. reflexivity. Qed.

(** C5, the code at the failing input: [addItem("note", 1.5)] on a fresh
    middleware of capacity 10 leaves a resident item whose stored priority
    is 1.5, outside [0,1]. *)
Theorem addItem_stores_priority_unclamped :
  let m := run (mkOptions 10 None None None)
             [CAddItem "note" (Some (3 # 2)) date1] in
  reachable m /\
  items m = [mkItem "ctx_1" "note" (3 # 2) date1 false] /\
  ~ inRange (3 # 2).
Proof.
  split; [|split].
  - now exists (mkOptions 10 None None None),
      [CAddItem "note" (Some (3 # 2)) date1].
  - reflexivity.
  - intros [_ H]. apply Qle_bool_iff in H. discriminate.
Qed.

(** What does hold: [updatePriority] clamps, and no method other than
    [addItem] introduces a priority; so the stored priorities stay in
    [0,1] along every sequence of calls whose [addItem] arguments are in
    [0,1]. *)

Lemma derived_inRange m m' :
  derived m m' -> priorities_inRange m -> priorities_inRange m'.
Proof.
  intros Hd Hm i Hi. destruct (Hd i Hi) as (j & Hj & ->). now apply Hm.
Qed.

Lemma derived_compress m : derived m (snd (compress m)).
Proof.
  intros i Hi. rewrite compress_archivedItems in Hi.
  apply in_app_or in Hi as [Hi | Hi].
  - exists i. split; [|reflexivity].
    apply in_or_app. left. now apply compress_items_In.
  - apply in_app_or in Hi as [Hi | Hi].
    + exists i. split; [|reflexivity]. apply in_or_app. now right.
    + apply in_map_iff in Hi as (j & <- & Hj). exists j.
      split; [|reflexivity]. apply in_or_app. left. now apply evicted_In.
Qed.

Lemma splice1_In {A : Type} (l : list A) i x :
  In x (JS.splice1 i l) -> In x l.
Proof.
  intros H. destruct (splice1_sub l i) as [extra Hperm].
  apply (Permutation_in x Hperm). apply in_or_app. now left.
Qed.

Lemma updateFirst_In pred f l i :
  In i (updateFirst pred f l) -> In i l \/ exists j, In j l /\ i = f j.
Proof.
  induction l as [|x xs IH]; simpl; [contradiction|].
  destruct (pred x); simpl.
  - intros [<- | H]; [right; exists x; split; [now left | reflexivity]|].
    left. now right.
  - intros [<- | H]; [left; now left|].
    destruct (IH H) as [H' | (j & Hj & ->)]; [left; now right|].
    right. exists j. split; [now right | reflexivity].
Qed.

Lemma inRange_call m c :
  call_inRange c -> priorities_inRange m -> priorities_inRange (call m c).
Proof.
  destruct c as [c p now|itemId p|itemId|itemId| | | | |size|text|n];
    simpl; intros Hc Hm.
  - (* addItem *)
    unfold addItem. simpl. eapply derived_inRange; [apply derived_compress|].
    intros i Hi. simpl in Hi. rewrite <- app_assoc in Hi.
    apply in_app_or in Hi as [Hi | [<- | Hi]].
    + apply Hm. apply in_or_app. now left.
    + simpl. destruct p as [p|]; [exact Hc|].
      split; discriminate.
    + apply Hm. apply in_or_app. now right.
  - (* updatePriority *)
    unfold updatePriority.
    destruct (find (hasId itemId) (items m)); simpl; [|exact Hm].
    intros i Hi. simpl in Hi. apply in_app_or in Hi as [Hi | Hi].
    + apply updateFirst_In in Hi as [Hi | (j & Hj & ->)].
      * apply Hm. apply in_or_app. now left.
      * apply clamp_inRange.
    + apply Hm. apply in_or_app. now right.
  - (* removeItem *)
    unfold removeItem.
    destruct (JS.findIndex (hasId itemId) (items m)); simpl; [|exact Hm].
    intros i Hi. simpl in Hi. apply Hm.
    apply in_app_or in Hi as [Hi | Hi]; apply in_or_app;
      [left; now apply splice1_In in Hi | now right].
  - (* restoreItem *)
    unfold restoreItem.
    destruct (JS.findIndex (hasId itemId) (archivedItems m)) as [index|];
      simpl; [|exact Hm].
    destruct (nth_error (archivedItems m) index) as [item|] eqn:Hn;
      simpl; [|exact Hm].
    eapply derived_inRange; [apply derived_compress|].
    intros i Hi. simpl in Hi. rewrite <- app_assoc in Hi.
    apply in_app_or in Hi as [Hi | [<- | Hi]].
    + apply Hm. apply in_or_app. now left.
    + simpl. apply (Hm item). apply in_or_app. right.
      now apply nth_error_In in Hn.
    + apply Hm. apply in_or_app. right. now apply splice1_In in Hi.
  - (* archiveLowPriority *)
    intros i Hi. simpl in Hi. apply in_app_or in Hi as [Hi | Hi].
    + apply filter_In in Hi as [Hi _].
      apply in_map_iff in Hi as (j & <- & Hj).
      assert (inRange (priority j)) as Hr
        by (apply Hm; apply in_or_app; now left).
      now destruct (belowThreshold m j).
    + apply in_app_or in Hi as [Hi | Hi].
      * apply Hm. apply in_or_app. now right.
      * apply in_map_iff in Hi as (j & <- & Hj).
        apply filter_In in Hj as [Hj _]. simpl.
        apply Hm. apply in_or_app. now left.
  - (* compress *)
    eapply derived_inRange; [apply derived_compress | exact Hm].
  - (* clear *) intros i [].
  - (* clearArchived *)
    intros i Hi. simpl in Hi. rewrite app_nil_r in Hi.
    apply Hm. apply in_or_app. now left.
  - (* setMaxSize *)
    unfold setMaxSize.
    eapply derived_inRange; [apply derived_compress | exact Hm].
  - (* setInstructions *) exact Hm.
  - (* summarizeArchived *)
    rewrite summarizeArchived_state. intros i Hi. simpl in Hi.
    apply Hm. apply in_app_or in Hi as [Hi | Hi]; apply in_or_app;
      [now left | right; now apply sort_In in Hi].
Qed.

Lemma inRange_run options calls :
  Forall call_inRange calls -> priorities_inRange (run options calls).
Proof.
  unfold run.
  assert (priorities_inRange (constructor options)) as H0 by (intros i []).
  revert H0. generalize (constructor options).
  induction calls as [|c cs IH]; intros m Hm Hall; simpl; [exact Hm|].
  inversion Hall; subst. apply IH; [|assumption].
  now apply inRange_call.
Qed.

(** * Further properties of the middleware *)

(** ** [compress]: nothing is lost, the size bound, a second run *)

Lemma compressWith_compress m :
  compressWith isCritical isRegular (JS.sort byPriorityDesc)
    (JS.sort instructionsFirst) m
  = compress m.
Proof. reflexivity. Qed.

Lemma addItemWith_addItem c p now m :
  addItemWith isCritical isRegular (JS.sort byPriorityDesc)
    (JS.sort instructionsFirst) c p now m
  = addItem c p now m.
Proof. reflexivity. Qed.

Section AnyTestsFacts.
Variables critical regular : ContextItem -> bool.
Variables sortByPriority sortForDisplay :
  list ContextItem -> list ContextItem.
Hypothesis sortForDisplay_perm : forall l, Permutation (sortForDisplay l) l.

(** What a run does to the two arrays, whatever the tests say. *)
Lemma compressWith_parts m :
  archivedItems
    (snd (compressWith critical regular sortByPriority sortForDisplay m))
  = archivedItems m
    ++ map (set_archived true)
         (evictedWith regular sortByPriority critical m) /\
  Permutation
    (items
       (snd (compressWith critical regular sortByPriority sortForDisplay m))
     ++ evictedWith regular sortByPriority critical m)
    (if overCapacity m
     then instructionsWith critical sortByPriority m
          ++ regularItemsWith regular sortByPriority m
     else items m) /\
  maxSize
    (snd (compressWith critical regular sortByPriority sortForDisplay m))
  = maxSize m /\
  idCounter
    (snd (compressWith critical regular sortByPriority sortForDisplay m))
  = idCounter m.
Proof.
  unfold compressWith, evictedWith, overCapacity.
  destruct (getCurrentSize m <=? maxSize m); simpl.
  - rewrite !app_nil_r. now repeat split.
  - rewrite selectLoop_spec. simpl. repeat split.
    rewrite sortForDisplay_perm, <- app_assoc.
    apply Permutation_app_head, kept_rejected_perm.
Qed.

(** An item on which both tests are false, as on a NaN priority, is
    neither kept nor archived by an evicting run under pinning. *)
Lemma compressWith_drops_untested m i :
  pinning m = true -> overCapacity m = true ->
  critical i = false -> regular i = false ->
  ~ In i
      (items
         (snd (compressWith critical regular sortByPriority sortForDisplay
                 m))) /\
  ~ In i (evictedWith regular sortByPriority critical m).
Proof.
  intros Hpin Hov Hc Hr.
  destruct (compressWith_parts m) as (_ & Hperm & _). rewrite Hov in Hperm.
  assert (~ In i (instructionsWith critical sortByPriority m
                  ++ regularItemsWith regular sortByPriority m)) as Hno.
  { unfold instructionsWith, regularItemsWith. rewrite Hpin. intros Hin.
    apply in_app_or in Hin as [Hin | Hin];
      apply filter_In in Hin as [_ Hin]; congruence. }
  split; intros Hin; apply Hno; apply (Permutation_in i Hperm);
    apply in_or_app; [now left | now right].
Qed.

Hypothesis sortByPriority_perm : forall l, Permutation (sortByPriority l) l.

(** When every resident item passes exactly one of the two tests, the
    instructions and the regular items together are the resident items. *)
Lemma testsWith_partition m :
  (forall i, In i (items m) -> critical i = negb (regular i)) ->
  Permutation
    (instructionsWith critical sortByPriority m
     ++ regularItemsWith regular sortByPriority m)
    (items m).
Proof.
  intros Hone. unfold instructionsWith, regularItemsWith.
  destruct (pinning m); simpl; [|apply sortByPriority_perm].
  rewrite Permutation_app_comm.
  rewrite (filter_ext_in critical (fun x => negb (regular x))).
  - rewrite filter_split_perm. apply sortByPriority_perm.
  - intros a Ha. apply Hone.
    now apply (Permutation_in a (sortByPriority_perm (items m))).
Qed.

Lemma compressWith_conserves m :
  (forall i, In i (items m) -> critical i = negb (regular i)) ->
  Permutation
    (items
       (snd (compressWith critical regular sortByPriority sortForDisplay m))
     ++ evictedWith regular sortByPriority critical m)
    (items m).
Proof.
  intros Hone. destruct (compressWith_parts m) as (_ & Hperm & _).
  rewrite Hperm. destruct (overCapacity m); [|reflexivity].
  now apply testsWith_partition.
Qed.
End AnyTestsFacts.

(** X1: One run of [compress] loses no item, provided every resident
    item passes exactly one of the tests [priority > 0.9] and
    [priority <= 0.9], as every priority that is a number does: whatever
    order the two sorts produce, the counts of [getStats] add up to the
    same total, the resident size does not increase, and the archive is
    the old archive followed by the items taken from the resident array,
    flagged. *)
Theorem compress_loses_nothing critical regular sortByPriority
    sortForDisplay m :
  (forall l, Permutation (sortByPriority l) l) ->
  (forall l, Permutation (sortForDisplay l) l) ->
  (forall i, In i (items m) -> critical i = negb (regular i)) ->
  let m' :=
    snd (compressWith critical regular sortByPriority sortForDisplay m) in
  let s := getStats m in
  let s' := getStats m' in
  (st_itemCount s' + st_archivedCount s'
   = st_itemCount s + st_archivedCount s)%nat /\
  st_currentSize s' <= st_currentSize s /\
  st_maxSize s' = st_maxSize s /\
  exists moved,
    archivedItems m' = archivedItems m ++ map (set_archived true) moved /\
    Permutation (items m' ++ moved) (items m).
Proof.
  intros HsortP HsortD Hone. cbv zeta.
  destruct (compressWith_parts critical regular sortByPriority
              sortForDisplay HsortD m) as (Harch & _ & Hmax & _).
  pose proof (compressWith_conserves critical regular sortByPriority
                sortForDisplay HsortD HsortP m Hone) as Hperm.
  simpl. repeat split.
  - rewrite Harch, length_app, length_map.
    apply Permutation_length in Hperm. rewrite length_app in Hperm. lia.
  - unfold getCurrentSize. apply sizeOf_perm in Hperm.
    rewrite sizeOf_app in Hperm.
    pose proof (sizeOf_nonneg
                  (evictedWith regular sortByPriority critical m)). lia.
  - exact Hmax.
  - eexists. split; [exact Harch | exact Hperm].
Qed.

Lemma compress_loses_nothing_witness :
  (forall l, Permutation (JS.sort byPriorityDesc l) l) /\
  (forall l, Permutation (JS.sort instructionsFirst l) l) /\
  (forall i, In i (items twin_overfull) ->
             isCritical i = negb (isRegular i)) /\
  (st_itemCount (getStats (snd (compress twin_overfull)))
   + st_archivedCount (getStats (snd (compress twin_overfull)))
   = st_itemCount (getStats twin_overfull)
     + st_archivedCount (getStats twin_overfull))%nat.
Proof.
  split; [apply sort_perm|]. split; [apply sort_perm|].
  split; [intros i _; apply isCritical_negb|].
  exact (proj1 (compress_loses_nothing isCritical isRegular
                  (JS.sort byPriorityDesc) (JS.sort instructionsFirst)
                  twin_overfull (sort_perm byPriorityDesc)
                  (sort_perm instructionsFirst)
                  (fun i _ => isCritical_negb i))).
Defined.

Lemma kept_size available l : forall cur,
  sizeOf (kept available cur l) <= Z.max 0 (available - cur).
Proof.
  induction l as [|x xs IH]; intros cur; simpl.
  - change (sizeOf []) with 0. lia.
  - destruct (cur + itemSize x <=? available) eqn:E.
    + rewrite sizeOf_cons. specialize (IH (cur + itemSize x)).
      apply Z.leb_le in E. lia.
    + apply IH.
Qed.

Lemma instructions_nil_unpinned m : pinning m = false -> instructions m = [].
Proof. unfold instructions. now intros ->. Qed.

(** X2: After [compress] the resident size is at most the larger of the
    capacity and the size of the items kept as instructions; with pinning
    off and a capacity that is not negative it is at most the capacity. *)
Theorem compress_size_bound m :
  getCurrentSize (snd (compress m))
  <= Z.max (maxSize m) (instructionsSize m) /\
  (pinning m = false -> 0 <= maxSize m ->
   getCurrentSize (snd (compress m)) <= maxSize m).
Proof.
  assert (getCurrentSize (snd (compress m))
          <= Z.max (maxSize m) (instructionsSize m)) as H.
  { destruct (overCapacity m) eqn:Hov.
    - unfold getCurrentSize.
      rewrite (sizeOf_perm _ _ (compress_items_over m Hov)), sizeOf_app.
      pose proof (kept_size (availableSize m) (regularItems m) 0) as Hk.
      unfold accepted, availableSize, instructionsSize in *. lia.
    - rewrite compress_fits by exact Hov. unfold overCapacity in Hov.
      apply negb_false_iff, Z.leb_le in Hov. lia. }
  split; [exact H|]. intros Hpin Hmax.
  unfold instructionsSize in H.
  rewrite (instructions_nil_unpinned m Hpin) in H.
  change (sizeOf []) with 0 in H. lia.
Qed.

Lemma compress_size_bound_witness :
  pinning twin_overfull = false /\ 0 <= maxSize twin_overfull /\
  getCurrentSize (snd (compress twin_overfull)) <= maxSize twin_overfull.
Proof.
  split; [reflexivity|]. split; [discriminate|].
  apply (proj2 (compress_size_bound twin_overfull)).
  - reflexivity.
  - discriminate.
Defined.

Lemma filter_all {A : Type} (p : A -> bool) l :
  (forall x, In x l -> p x = true) -> filter p l = l.
Proof.
  induction l as [|x xs IH]; intros H; simpl; [reflexivity|].
  rewrite (H x) by now left. f_equal. apply IH. intros y Hy. apply H.
  now right.
Qed.

Lemma filter_none {A : Type} (p : A -> bool) l :
  (forall x, In x l -> p x = false) -> filter p l = [].
Proof.
  induction l as [|x xs IH]; intros H; simpl; [reflexivity|].
  rewrite (H x) by now left. apply IH. intros y Hy. apply H. now right.
Qed.

Lemma accepted_regular m x :
  pinning m = true -> In x (accepted m) -> isRegular x = true.
Proof.
  intros Hpin Hx. apply kept_In in Hx. unfold regularItems in Hx.
  rewrite Hpin in Hx. now apply filter_In in Hx.
Qed.

Lemma kept_nil_negative available l cur :
  available < cur -> kept available cur l = [].
Proof.
  intros Hlt. destruct (kept available cur l) as [|x xs] eqn:E;
    [reflexivity|].
  assert (In x (kept available cur l)) as Hx by (rewrite E; now left).
  apply kept_fits in Hx. pose proof (itemSize_nonneg x). lia.
Qed.

(** The state after one run of [compress], seen by a second run. *)
Lemma compress_result_parts m :
  overCapacity m = true ->
  Permutation (instructions (snd (compress m))) (instructions m) /\
  Permutation (regularItems (snd (compress m))) (accepted m).
Proof.
  intros Hov. pose proof (compress_items_over m Hov) as Hperm.
  destruct (compress_fields m) as (_ & Hp & Hc & _).
  assert (pinning (snd (compress m)) = pinning m) as Hpin
    by (unfold pinning; now rewrite Hp, Hc).
  unfold instructions at 1, regularItems at 1, sortedItems.
  rewrite Hpin. destruct (pinning m) eqn:Hpm.
  - split.
    + rewrite (Permutation_filter isCritical _ _ (sort_perm _ _)).
      rewrite (Permutation_filter isCritical _ _ Hperm), filter_app.
      rewrite (filter_all isCritical (instructions m))
        by (apply instructions_critical).
      rewrite (filter_none isCritical (accepted m)).
      * now rewrite app_nil_r.
      * intros x Hx. rewrite isCritical_negb.
        now rewrite (accepted_regular m x Hpm Hx).
    + rewrite (Permutation_filter isRegular _ _ (sort_perm _ _)).
      rewrite (Permutation_filter isRegular _ _ Hperm), filter_app.
      rewrite (filter_none isRegular (instructions m)).
      * simpl. rewrite filter_all; [reflexivity|].
        intros x Hx. now apply (accepted_regular m x Hpm).
      * intros x Hx. apply instructions_critical in Hx.
        rewrite isCritical_negb in Hx. now apply negb_true_iff in Hx.
  - rewrite (instructions_nil_unpinned m Hpm) in *. split; [reflexivity|].
    now rewrite sort_perm, Hperm.
Qed.

Lemma compress_settles m : evicted (snd (compress m)) = [].
Proof.
  unfold evicted at 1.
  destruct (overCapacity (snd (compress m))) eqn:Hov1; [|reflexivity].
  destruct (overCapacity m) eqn:Hov.
  2: { rewrite compress_fits in Hov1 by exact Hov. congruence. }
  destruct (compress_result_parts m Hov) as [Hi Hr].
  destruct (compress_fields m) as (Hmax & _).
  assert (accepted m = []) as Hnil.
  { unfold accepted. apply kept_nil_negative.
    pose proof (kept_size (availableSize m) (regularItems m) 0) as Hk.
    unfold overCapacity, getCurrentSize in Hov1.
    apply negb_true_iff, Z.leb_gt in Hov1.
    rewrite (sizeOf_perm _ _ (compress_items_over m Hov)) in Hov1.
    rewrite sizeOf_app, Hmax in Hov1.
    unfold accepted, availableSize, instructionsSize in *. lia. }
  rewrite Hnil in Hr. apply Permutation_sym, Permutation_nil in Hr.
  now rewrite Hr.
Qed.

(** X3: A second run of [compress] right after a first one archives nothing:
    the archive stays as the first run left it and the resident array holds
    the same items. *)
Theorem compress_twice m :
  let m1 := snd (compress m) in
  let m2 := snd (compress m1) in
  archivedItems m2 = archivedItems m1 /\
  Permutation (items m2) (items m1) /\
  getCurrentSize m2 = getCurrentSize m1.
Proof.
  simpl. pose proof (compress_settles m) as Hs.
  pose proof (compress_conserves (snd (compress m))) as Hperm.
  rewrite Hs, app_nil_r in Hperm. repeat split.
  - rewrite compress_archivedItems, Hs. simpl. now rewrite app_nil_r.
  - exact Hperm.
  - unfold getCurrentSize. now apply sizeOf_perm.
Qed.

(** ** The order of the resident array *)

Lemma sort_fixed {A : Type} (compareFn : A -> A -> Q) l :
  StronglySorted (fun a b => Qle_bool (compareFn a b) 0 = true) l ->
  JS.sort compareFn l = l.
Proof.
  induction 1 as [|x xs Hs IH Hall]; simpl; [reflexivity|].
  rewrite IH. destruct xs as [|y ys]; [reflexivity|]. simpl.
  inversion Hall as [|? ? Hxy _]; subst. now rewrite Hxy.
Qed.

Lemma Qle_bool_inject_Z z : Qle_bool (inject_Z z) 0 = true <-> z <= 0.
Proof.
  unfold Qle_bool, inject_Z. simpl. rewrite Z.leb_le. lia.
Qed.

Lemma instructionsFirst_le a b :
  Qle_bool (instructionsFirst a b) 0 = true <-> displayOrder a b.
Proof.
  unfold instructionsFirst, displayOrder. rewrite !isCritical_negb.
  destruct (isRegular a), (isRegular b); simpl;
    rewrite ?Qle_bool_inject_Z; split; intros H;
    try discriminate; try (left; now split);
    try (right; split; [reflexivity | lia]);
    try (destruct H as [[H1 H2] | [H1 H2]]; try discriminate; lia);
    try reflexivity.
Qed.

Lemma displayOrder_total a b : ~ displayOrder a b -> displayOrder b a.
Proof.
  unfold displayOrder. intros H.
  destruct (isRegular a) eqn:Ha, (isRegular b) eqn:Hb.
  - right. split; [reflexivity|].
    destruct (Z_le_gt_dec (getTime (timestamp a)) (getTime (timestamp b)));
      [assumption|].
    exfalso. apply H. right. split; [reflexivity | lia].
  - left. now split.
  - exfalso. apply H. left. now split.
  - right. split; [reflexivity|].
    destruct (Z_le_gt_dec (getTime (timestamp a)) (getTime (timestamp b)));
      [assumption|].
    exfalso. apply H. right. split; [reflexivity | lia].
Qed.

Lemma displayOrder_trans a b c :
  displayOrder a b -> displayOrder b c -> displayOrder a c.
Proof.
  unfold displayOrder.
  intros [[H1 H2] | [H1 H2]] [[H3 H4] | [H3 H4]]; try congruence.
  - left. split; congruence.
  - left. split; congruence.
  - right. split; [congruence | lia].
Qed.

Lemma instructionsFirst_gt a b :
  Qle_bool (instructionsFirst a b) 0 = false -> displayOrder b a.
Proof.
  intros H. apply displayOrder_total. intros Hd.
  apply instructionsFirst_le in Hd. congruence.
Qed.

Lemma sort_displayOrder l :
  StronglySorted displayOrder (JS.sort instructionsFirst l).
Proof.
  apply sort_sorted.
  - intros x y. apply instructionsFirst_le.
  - apply instructionsFirst_gt.
  - apply displayOrder_trans.
Qed.

Lemma sort_instructionsFirst_twice l :
  JS.sort instructionsFirst (JS.sort instructionsFirst l)
  = JS.sort instructionsFirst l.
Proof.
  apply sort_fixed. apply sort_sorted.
  - trivial.
  - intros x y H. apply instructionsFirst_le, instructionsFirst_gt, H.
  - intros x y z H1 H2. apply instructionsFirst_le.
    apply instructionsFirst_le in H1, H2.
    now apply (displayOrder_trans x y z).
Qed.

(** X4: When [compress] evicts, it leaves the resident array with every item of
    priority > 0.9 before every other item and, within each of the two
    groups, in order of descending creation time. *)
Theorem compress_leaves_display_order m :
  overCapacity m = true ->
  StronglySorted displayOrder (items (snd (compress m))).
Proof.
  intros Hov. rewrite compress_over by exact Hov. apply sort_displayOrder.
Qed.

Lemma compress_leaves_display_order_witness :
  overCapacity twin_overfull = true /\
  StronglySorted displayOrder (items (snd (compress twin_overfull))).
Proof.
  split; [reflexivity|].
  apply (compress_leaves_display_order twin_overfull). reflexivity.
Defined.

(** X5: [getFormattedContext] lists exactly the resident items, critical ones
    first and then by descending creation time, whatever the order of the
    resident array; right after an evicting [compress] that is the order of
    the resident array itself. *)
Theorem formatted_order m :
  Permutation (formattedItems m) (items m) /\
  StronglySorted displayOrder (formattedItems m) /\
  (overCapacity m = true ->
   formattedItems (snd (compress m)) = items (snd (compress m))).
Proof.
  split; [apply sort_perm|]. split; [apply sort_displayOrder|].
  intros Hov. unfold formattedItems. rewrite compress_over by exact Hov.
  apply sort_instructionsFirst_twice.
Qed.

Lemma formatted_order_witness :
  overCapacity twin_overfull = true /\
  formattedItems (snd (compress twin_overfull))
  = items (snd (compress twin_overfull)).
Proof.
  split; [reflexivity|].
  apply (proj2 (proj2 (formatted_order twin_overfull))). reflexivity.
Defined.

(** ** The flag [archived] *)

Lemma flags_compress m : flags_ok m -> flags_ok (snd (compress m)).
Proof.
  intros [Hi Ha]. rewrite Forall_forall in *. split; apply Forall_forall.
  - intros x Hx. now apply Hi, compress_items_In.
  - intros x Hx. rewrite compress_archivedItems in Hx.
    apply in_app_or in Hx as [Hx | Hx]; [now apply Ha|].
    now apply in_map_iff in Hx as (j & <- & _).
Qed.

Lemma flags_call m c : flags_ok m -> flags_ok (call m c).
Proof.
  destruct c as [c p now|itemId p|itemId|itemId| | | | |size|text|n];
    simpl; intros Hf.
  - unfold addItem. simpl. apply flags_compress.
    destruct Hf as [Hi Ha]. split; simpl; [|exact Ha].
    apply Forall_app. split; [exact Hi | now repeat constructor].
  - unfold updatePriority.
    destruct (find (hasId itemId) (items m)); simpl; [|exact Hf].
    destruct Hf as [Hi Ha]. split; simpl; [|exact Ha].
    rewrite Forall_forall in *. intros x Hx.
    apply updateFirst_In in Hx as [Hx | (j & Hj & ->)]; simpl; auto.
  - unfold removeItem.
    destruct (JS.findIndex (hasId itemId) (items m)); simpl; [|exact Hf].
    destruct Hf as [Hi Ha]. split; simpl; [|exact Ha].
    rewrite Forall_forall in *. intros x Hx.
    now apply Hi, (splice1_In _ _ _ Hx).
  - unfold restoreItem.
    destruct (JS.findIndex (hasId itemId) (archivedItems m)) as [index|];
      simpl; [|exact Hf].
    destruct (nth_error (archivedItems m) index) as [item|];
      simpl; [|exact Hf].
    apply flags_compress. destruct Hf as [Hi Ha]. split; simpl.
    + apply Forall_app. split; [exact Hi | now repeat constructor].
    + rewrite Forall_forall in *. intros x Hx.
      now apply Ha, (splice1_In _ _ _ Hx).
  - destruct Hf as [Hi Ha]. split; simpl.
    + apply Forall_forall. intros x Hx. apply filter_In in Hx as [_ Hx].
      now apply negb_true_iff in Hx.
    + apply Forall_app. split; [exact Ha|].
      apply Forall_forall. intros x Hx.
      now apply in_map_iff in Hx as (j & <- & _).
  - now apply flags_compress.
  - split; constructor.
  - destruct Hf as [Hi _]. split; [exact Hi | constructor].
  - unfold setMaxSize. now apply flags_compress.
  - exact Hf.
  - rewrite summarizeArchived_state. destruct Hf as [Hi Ha].
    split; simpl; [exact Hi|].
    rewrite Forall_forall in *. intros x Hx. apply sort_In in Hx.
    now apply Ha.
Qed.

Lemma flags_fold calls : forall m, flags_ok m ->
  flags_ok (fold_left call calls m).
Proof.
  induction calls as [|c cs IH]; intros m Hf; simpl; [exact Hf|].
  now apply IH, flags_call.
Qed.

Lemma reachable_flags m : reachable m -> flags_ok m.
Proof.
  intros (options & calls & ->). apply flags_fold. split; constructor.
Qed.

Lemma reachable_resident_unflagged m :
  reachable m -> forall i, In i (items m) -> archived i = false.
Proof.
  intros Hr. destruct (reachable_flags m Hr) as [Hi _].
  now rewrite Forall_forall in Hi.
Qed.

(** X6: In every reachable state the flag of an item tells the array that
    holds it: [archived] is false on every resident item and true on every
    archived item. *)
Theorem flag_matches_array m :
  reachable m ->
  (forall i, In i (items m) -> archived i = false) /\
  (forall i, In i (archivedItems m) -> archived i = true).
Proof.
  intros Hr. destruct (reachable_flags m Hr) as [Hi Ha].
  rewrite Forall_forall in Hi, Ha. now split.
Qed.

Lemma flag_matches_array_witness :
  let m := run twin_options twin_calls in
  reachable m /\
  ((forall i, In i (items m) -> archived i = false) /\
   (forall i, In i (archivedItems m) -> archived i = true)).
Proof.
  assert (reachable (run twin_options twin_calls)) as Hr
    by (now exists twin_options, twin_calls).
  split; [exact Hr|]. exact (flag_matches_array _ Hr).
Defined.

(** ** [archiveLowPriority] *)

Lemma flagged_filter (below : ContextItem -> bool) l :
  (forall i, In i l -> archived i = false) ->
  filter (fun item => negb (archived item))
    (map (fun item => if below item then set_archived true item else item)
       l)
  = filter (fun item => negb (below item)) l.
Proof.
  induction l as [|x xs IH]; intros H; simpl; [reflexivity|].
  rewrite IH by (intros i Hi; apply H; now right).
  destruct (below x); simpl; [reflexivity|].
  now rewrite (H x) by now left.
Qed.

Lemma archiveLowPriority_unflagged m :
  (forall i, In i (items m) -> archived i = false) ->
  let low := filter (belowThreshold m) (items m) in
  let m' := snd (archiveLowPriority m) in
  fst (archiveLowPriority m) = List.length low /\
  items m' = filter (fun i => negb (belowThreshold m i)) (items m) /\
  archivedItems m' = archivedItems m ++ map (set_archived true) low /\
  (forall i, In i (items m') ->
             (archiveThreshold m' <= priority i)%Q).
Proof.
  intros Hi. simpl. rewrite (flagged_filter _ _ Hi). repeat split.
  intros i Hin. apply filter_In in Hin as [_ Hb].
  unfold belowThreshold, JS.lt in Hb. rewrite negb_involutive in Hb.
  now apply Qle_bool_iff.
Qed.

(** X7: In a reachable state [archiveLowPriority] keeps, in their order, the
    resident items whose priority is not below the threshold, appends the
    others, flagged and in their order, to the archive, and returns how
    many it moved; afterwards no resident item is below the threshold. *)
Theorem archiveLowPriority_moves_low_items m :
  reachable m ->
  let low := filter (belowThreshold m) (items m) in
  let m' := snd (archiveLowPriority m) in
  fst (archiveLowPriority m) = List.length low /\
  items m' = filter (fun i => negb (belowThreshold m i)) (items m) /\
  archivedItems m' = archivedItems m ++ map (set_archived true) low /\
  (forall i, In i (items m') ->
             (archiveThreshold m' <= priority i)%Q).
Proof.
  intros Hr. apply archiveLowPriority_unflagged.
  now apply reachable_resident_unflagged.
Qed.

Lemma archiveLowPriority_moves_low_items_witness :
  let m := run twin_options (firstn 3 twin_calls) in
  reachable m /\
  fst (archiveLowPriority m)
  = List.length (filter (belowThreshold m) (items m)).
Proof.
  assert (reachable (run twin_options (firstn 3 twin_calls))) as Hr
    by (now exists twin_options, (firstn 3 twin_calls)).
  split; [exact Hr|].
  exact (proj1 (archiveLowPriority_moves_low_items _ Hr)).
Defined.

Lemma archiveLowPriority_nothing_low m :
  (forall i, In i (items m) -> archived i = false) ->
  (forall i, In i (items m) -> (archiveThreshold m <= priority i)%Q) ->
  archiveLowPriority m = (O, m).
Proof.
  intros Hi Hge.
  assert (forall i, In i (items m) -> belowThreshold m i = false) as Hb.
  { intros i Hin. unfold belowThreshold, JS.lt. apply negb_false_iff.
    now apply Qle_bool_iff, Hge. }
  unfold archiveLowPriority.
  rewrite (flagged_filter _ _ Hi), (filter_none _ _ Hb). simpl.
  rewrite app_nil_r, filter_all.
  - now destruct m.
  - intros i Hin. now rewrite (Hb i Hin).
Qed.

(** X8: A second [archiveLowPriority] right after a first one moves nothing:
    it returns 0 and leaves the state as it is. *)
Theorem archiveLowPriority_twice m :
  reachable m ->
  archiveLowPriority (snd (archiveLowPriority m))
  = (O, snd (archiveLowPriority m)).
Proof.
  intros Hr.
  assert (reachable (snd (archiveLowPriority m))) as Hr'.
  { destruct Hr as (options & calls & ->).
    exists options, (calls ++ [CArchiveLowPriority]).
    unfold run. now rewrite fold_left_app. }
  destruct (archiveLowPriority_unflagged m
              (reachable_resident_unflagged m Hr)) as (_ & _ & _ & Hge).
  apply archiveLowPriority_nothing_low; [|exact Hge].
  now apply reachable_resident_unflagged.
Qed.

Lemma archiveLowPriority_twice_witness :
  let m := run twin_options (firstn 3 twin_calls) in
  reachable m /\
  archiveLowPriority (snd (archiveLowPriority m))
  = (O, snd (archiveLowPriority m)).
Proof.
  assert (reachable (run twin_options (firstn 3 twin_calls))) as Hr
    by (now exists twin_options, (firstn 3 twin_calls)).
  split; [exact Hr|]. exact (archiveLowPriority_twice _ Hr).
Defined.

(** ** Calls on identifiers that are found *)

Lemma findIndex_split {A : Type} (pred : A -> bool) l : forall i,
  JS.findIndex pred l = Some i ->
  exists l1 x l2,
    l = l1 ++ x :: l2 /\ pred x = true /\
    (forall y, In y l1 -> pred y = false) /\
    nth_error l i = Some x /\ JS.splice1 i l = l1 ++ l2.
Proof.
  induction l as [|y ys IH]; intros i; simpl; [discriminate|].
  destruct (pred y) eqn:E.
  - intros H. injection H as <-. exists [], y, ys. now repeat split.
  - destruct (JS.findIndex pred ys) as [j|]; simpl; [|discriminate].
    intros H. injection H as <-.
    destruct (IH j eq_refl) as (l1 & x & l2 & -> & Hx & Hl1 & Hn & Hs).
    exists (y :: l1), x, l2. repeat split; try assumption.
    + intros z [<- | Hz]; [exact E | now apply Hl1].
    + unfold JS.splice1 in *.
      change (y :: (firstn j (l1 ++ x :: l2)
                    ++ skipn (S j) (l1 ++ x :: l2)) = y :: l1 ++ l2).
      now rewrite Hs.
Qed.

Lemma findIndex_found {A : Type} (pred : A -> bool) l x :
  In x l -> pred x = true -> exists i, JS.findIndex pred l = Some i.
Proof.
  induction l as [|y ys IH]; simpl; [contradiction|].
  intros Hin Hx. destruct (pred y) eqn:E; [now exists O|].
  destruct Hin as [-> | Hin]; [congruence|].
  destruct (IH Hin Hx) as [i ->]. now exists (S i).
Qed.

Lemma hasId_present itemId l :
  In itemId (ids l) -> exists x, In x l /\ hasId itemId x = true.
Proof.
  intros H. apply in_map_iff in H as (x & <- & Hx). exists x.
  split; [exact Hx | apply String.eqb_refl].
Qed.

Lemma hasId_true itemId x : hasId itemId x = true -> id x = itemId.
Proof. apply String.eqb_eq. Qed.

Lemma hasId_none_ids itemId l :
  (forall y, In y l -> hasId itemId y = false) -> ~ In itemId (ids l).
Proof.
  intros H Hin. destruct (hasId_present _ _ Hin) as (x & Hx & Ht).
  rewrite (H x Hx) in Ht. discriminate.
Qed.

(** The first item with a given identifier, when there is one. *)
Lemma first_with_id itemId l :
  In itemId (ids l) ->
  exists i l1 x l2,
    JS.findIndex (hasId itemId) l = Some i /\
    l = l1 ++ x :: l2 /\ id x = itemId /\ ~ In itemId (ids l1) /\
    nth_error l i = Some x /\ JS.splice1 i l = l1 ++ l2.
Proof.
  intros H. destruct (hasId_present _ _ H) as (y & Hy & Ht).
  destruct (findIndex_found _ _ _ Hy Ht) as [i Hi].
  destruct (findIndex_split _ _ _ Hi) as (l1 & x & l2 & E & Hx & Hl1 & Hn & Hs).
  exists i, l1, x, l2. repeat split; try assumption.
  - now apply hasId_true.
  - now apply hasId_none_ids.
Qed.

Lemma find_first (pred : ContextItem -> bool) l1 x l2 :
  (forall y, In y l1 -> pred y = false) -> pred x = true ->
  find pred (l1 ++ x :: l2) = Some x.
Proof.
  induction l1 as [|y ys IH]; intros H Hx; simpl; [now rewrite Hx|].
  rewrite (H y) by now left. apply IH; [|exact Hx].
  intros z Hz. apply H. now right.
Qed.

Lemma updateFirst_first pred f l1 x l2 :
  (forall y, In y l1 -> pred y = false) -> pred x = true ->
  updateFirst pred f (l1 ++ x :: l2) = l1 ++ f x :: l2.
Proof.
  induction l1 as [|y ys IH]; intros H Hx; simpl; [now rewrite Hx|].
  rewrite (H y) by now left. f_equal. apply IH; [|exact Hx].
  intros z Hz. apply H. now right.
Qed.

(** X9: [updatePriority] on a resident identifier returns [true] and assigns
    the clamped priority to the first resident item with that identifier;
    the order of the resident array, every other item, the archive and the
    resident size are unchanged, and [compress] is not run. *)
Theorem updatePriority_found itemId p m :
  In itemId (ids (items m)) ->
  exists l1 x l2,
    items m = l1 ++ x :: l2 /\ id x = itemId /\ ~ In itemId (ids l1) /\
    updatePriority itemId p m
    = (true, with_items (l1 ++ set_priority (clamp p) x :: l2) m) /\
    getCurrentSize (snd (updatePriority itemId p m)) = getCurrentSize m.
Proof.
  intros H.
  destruct (first_with_id _ _ H)
    as (i & l1 & x & l2 & Hi & E & Hx & Hl1 & _ & _).
  exists l1, x, l2. split; [exact E|]. split; [exact Hx|].
  split; [exact Hl1|].
  assert (forall y, In y l1 -> hasId itemId y = false) as Hno
    by (now apply hasId_absent).
  assert (hasId itemId x = true) as Ht
    by (unfold hasId; rewrite Hx; apply String.eqb_refl).
  unfold updatePriority.
  rewrite E, (find_first _ _ _ _ Hno Ht), (updateFirst_first _ _ _ _ _ Hno Ht).
  split; [reflexivity|]. simpl. unfold getCurrentSize. simpl.
  rewrite E, !sizeOf_app, !sizeOf_cons. reflexivity.
Qed.

Lemma updatePriority_found_witness :
  let m := run twin_options twin_calls in
  In "ctx_2"%string (ids (items m)) /\
  exists l1 x l2,
    items m = l1 ++ x :: l2 /\ id x = "ctx_2"%string /\
    ~ In "ctx_2"%string (ids l1) /\
    updatePriority "ctx_2" (3 # 2) m
    = (true, with_items (l1 ++ set_priority (clamp (3 # 2)) x :: l2) m) /\
    getCurrentSize (snd (updatePriority "ctx_2" (3 # 2) m))
    = getCurrentSize m.
Proof.
  assert (In "ctx_2"%string (ids (items (run twin_options twin_calls))))
    as Hin by (right; now left).
  split; [exact Hin|].
  exact (updatePriority_found "ctx_2" (3 # 2) _ Hin).
Defined.

(** X10: In a reachable state [removeItem] on a resident identifier returns
    [true] and deletes that one item: the other resident items keep their
    order, the archive is untouched, and the identifier is afterwards in
    neither array. *)
Theorem removeItem_found itemId m :
  reachable m -> In itemId (ids (items m)) ->
  exists l1 x l2,
    items m = l1 ++ x :: l2 /\ id x = itemId /\
    removeItem itemId m = (true, with_items (l1 ++ l2) m) /\
    ~ In itemId (all_ids (snd (removeItem itemId m))).
Proof.
  intros Hr H. apply reachable_wf in Hr. destruct Hr as [Hnd _].
  destruct (first_with_id _ _ H)
    as (i & l1 & x & l2 & Hi & E & Hx & Hl1 & _ & Hs).
  exists l1, x, l2. split; [exact E|]. split; [exact Hx|].
  unfold removeItem. rewrite Hi, Hs. split; [reflexivity|].
  unfold all_ids in *. simpl. rewrite E in Hnd.
  rewrite !ids_app in *. simpl in Hnd. rewrite Hx in Hnd.
  rewrite <- app_assoc in Hnd. simpl in Hnd.
  apply NoDup_remove_2 in Hnd. now rewrite <- app_assoc.
Qed.

Lemma removeItem_found_witness :
  let m := run twin_options twin_calls in
  reachable m /\ In "ctx_2"%string (ids (items m)) /\
  exists l1 x l2,
    items m = l1 ++ x :: l2 /\ id x = "ctx_2"%string /\
    removeItem "ctx_2" m = (true, with_items (l1 ++ l2) m) /\
    ~ In "ctx_2"%string (all_ids (snd (removeItem "ctx_2" m))).
Proof.
  assert (reachable (run twin_options twin_calls)) as Hr
    by (now exists twin_options, twin_calls).
  assert (In "ctx_2"%string (ids (items (run twin_options twin_calls))))
    as Hin by (right; now left).
  split; [exact Hr|]. split; [exact Hin|].
  exact (removeItem_found "ctx_2" _ Hr Hin).
Defined.

Lemma itemSize_set_archived b x : itemSize (set_archived b x) = itemSize x.
Proof. reflexivity. Qed.

(** X11: [restoreItem] on an archived identifier returns [true]; when the
    resident size plus the size of the restored item is within the
    capacity, the item, with its flag cleared, is appended to the resident
    array, it leaves the archive, and nothing else changes. *)
Theorem restoreItem_found_and_fits itemId m :
  In itemId (ids (archivedItems m)) ->
  exists a1 x a2,
    archivedItems m = a1 ++ x :: a2 /\ id x = itemId /\
    ~ In itemId (ids a1) /\
    fst (restoreItem itemId m) = true /\
    (getCurrentSize m + itemSize x <= maxSize m ->
     snd (restoreItem itemId m)
     = with_items (items m ++ [set_archived false x])
         (with_archivedItems (a1 ++ a2) m)).
Proof.
  intros H.
  destruct (first_with_id _ _ H)
    as (i & a1 & x & a2 & Hi & E & Hx & Ha1 & Hn & Hs).
  exists a1, x, a2. split; [exact E|]. split; [exact Hx|].
  split; [exact Ha1|].
  unfold restoreItem. rewrite Hi, Hn, Hs. split; [reflexivity|].
  intros Hfit. simpl. apply compress_fits.
  unfold overCapacity, getCurrentSize in *. simpl.
  apply negb_false_iff, Z.leb_le.
  rewrite sizeOf_app, sizeOf_cons, itemSize_set_archived.
  change (sizeOf []) with 0. lia.
Qed.

Lemma restoreItem_found_and_fits_witness :
  let m := with_maxSize 9 (run twin_options twin_calls) in
  In "ctx_1"%string (ids (archivedItems m)) /\
  exists a1 x a2,
    archivedItems m = a1 ++ x :: a2 /\ id x = "ctx_1"%string /\
    ~ In "ctx_1"%string (ids a1) /\
    fst (restoreItem "ctx_1" m) = true /\
    (getCurrentSize m + itemSize x <= maxSize m ->
     snd (restoreItem "ctx_1" m)
     = with_items (items m ++ [set_archived false x])
         (with_archivedItems (a1 ++ a2) m)).
Proof.
  assert (In "ctx_1"%string
            (ids (archivedItems
                    (with_maxSize 9 (run twin_options twin_calls)))))
    as Hin by (right; now left).
  split; [exact Hin|].
  exact (restoreItem_found_and_fits "ctx_1" _ Hin).
Defined.

(** C10: a call of [restoreItem] that returns [true] does not leave the
    item resident for sure.  In a reachable state, [restoreItem] on an
    archived identifier takes the first archived item with that identifier
    out of the archive and appends it, unflagged, to the resident array
    (at that point the identifier is resident and not archived), and then
    runs [compress] on the result; the archive on return is the rest of
    the old archive followed by what that run evicts, so the identifier is
    archived on return exactly when the run evicts the restored item.  That
    happens: with capacity 1 and the archive [ctx_1; ctx_2] of two items of
    size 2, [restoreItem("ctx_1")] returns [true], the resident array is
    empty and the archive is [ctx_2; ctx_1], the restored item having been
    archived again behind the other one. *)
Theorem restored_item_may_be_archived_again :
  (forall itemId m,
     reachable m -> In itemId (ids (archivedItems m)) ->
     exists a1 x a2,
       archivedItems m = a1 ++ x :: a2 /\ id x = itemId /\
       let moved :=
         with_items (items m ++ [set_archived false x])
           (with_archivedItems (a1 ++ a2) m) in
       In itemId (ids (items moved)) /\
       ~ In itemId (ids (archivedItems moved)) /\
       restoreItem itemId m = (true, snd (compress moved)) /\
       archivedItems (snd (restoreItem itemId m))
       = (a1 ++ a2) ++ map (set_archived true) (evicted moved) /\
       (In itemId (ids (archivedItems (snd (restoreItem itemId m)))) <->
        In (set_archived false x) (evicted moved))) /\
  (reachable two_archived /\
   items two_archived = [] /\
   archivedItems two_archived = [archived_a; archived_b] /\
   fst (restoreItem "ctx_1" two_archived) = true /\
   items (snd (restoreItem "ctx_1" two_archived)) = [] /\
   archivedItems (snd (restoreItem "ctx_1" two_archived))
   = [archived_b; archived_a]).
Proof.
  split.
  - intros itemId m Hr Hin. pose proof (reachable_wf m Hr) as Hwf.
    destruct Hwf as [Hnd _].
    destruct (first_with_id _ _ Hin)
      as (i & a1 & x & a2 & Hi & E & Hx & _ & Hn & Hs).
    exists a1, x, a2. split; [exact E|]. split; [exact Hx|]. cbv zeta.
    set (moved := with_items (items m ++ [set_archived false x])
                    (with_archivedItems (a1 ++ a2) m)).
    assert (~ In itemId (ids (a1 ++ a2))) as Hgone.
    { unfold all_ids in Hnd. apply NoDup_app_remove_l in Hnd.
      rewrite E, ids_app in Hnd. simpl in Hnd. rewrite Hx in Hnd.
      apply NoDup_remove_2 in Hnd. now rewrite ids_app. }
    assert (restoreItem itemId m = (true, snd (compress moved))) as Heq
      by (unfold restoreItem; now rewrite Hi, Hn, Hs).
    assert (archivedItems (snd (restoreItem itemId m))
            = (a1 ++ a2) ++ map (set_archived true) (evicted moved)) as Harch
      by (rewrite Heq; cbn [snd]; now rewrite compress_archivedItems).
    split; [|split; [exact Hgone|split; [exact Heq|split; [exact Harch|]]]].
    + unfold moved. simpl. rewrite ids_app. apply in_or_app. right.
      simpl. now left.
    + rewrite Harch, ids_app, ids_set_archived. split.
      * intros H. apply in_app_or in H as [H | H]; [contradiction|].
        apply in_map_iff in H as (y & Hy & Hev).
        pose proof (evicted_In _ _ Hev) as Hres. unfold moved in Hres.
        simpl in Hres. apply in_app_or in Hres as [Hres | [<- | []]];
          [|exact Hev].
        exfalso. apply (wf_disjoint m itemId (reachable_wf m Hr)).
        -- rewrite <- Hy. now apply in_map.
        -- exact Hin.
      * intros H. apply in_or_app. right. rewrite <- Hx.
        change (id x) with (id (set_archived false x)). now apply in_map.
  - split.
    + now exists (mkOptions 1 None None None),
        [CAddItem "aaaaaaaa" (Some (1 # 2)) date1;
         CAddItem "bbbbbbbb" (Some (1 # 2)) date2].
    + vm_compute. repeat split; reflexivity.
Qed.

Lemma restored_item_may_be_archived_again_witness :
  reachable two_archived /\
  In "ctx_1"%string (ids (archivedItems two_archived)) /\
  exists a1 x a2,
    archivedItems two_archived = a1 ++ x :: a2 /\ id x = "ctx_1"%string /\
    let moved :=
      with_items (items two_archived ++ [set_archived false x])
        (with_archivedItems (a1 ++ a2) two_archived) in
    In "ctx_1"%string (ids (items moved)) /\
    ~ In "ctx_1"%string (ids (archivedItems moved)) /\
    restoreItem "ctx_1" two_archived = (true, snd (compress moved)) /\
    archivedItems (snd (restoreItem "ctx_1" two_archived))
    = (a1 ++ a2) ++ map (set_archived true) (evicted moved) /\
    (In "ctx_1"%string
       (ids (archivedItems (snd (restoreItem "ctx_1" two_archived)))) <->
     In (set_archived false x) (evicted moved)).
Proof.
  assert (reachable two_archived) as Hr.
  { now exists (mkOptions 1 None None None),
      [CAddItem "aaaaaaaa" (Some (1 # 2)) date1;
       CAddItem "bbbbbbbb" (Some (1 # 2)) date2]. }
  assert (In "ctx_1"%string (ids (archivedItems two_archived))) as Hin
    by (now left).
  split; [exact Hr|]. split; [exact Hin|].
  exact (proj1 restored_item_may_be_archived_again
           "ctx_1"%string two_archived Hr Hin).
Defined.

(** ** [addItem] and [addItems] *)

Lemma addItem_state c p now m :
  snd (addItem c p now m)
  = snd (compress
           (mkMiddleware (maxSize m) (preserveInstructionsAtStart m)
              (instructionsContent m) (archiveThreshold m)
              (items m ++ [fst (addItem c p now m)]) (archivedItems m)
              (S (idCounter m)))).
Proof. reflexivity. Qed.

Lemma addItem_id c p now m : id (fst (addItem c p now m)) = newId m.
Proof. reflexivity. Qed.

Lemma addItem_idCounter c p now m :
  idCounter (snd (addItem c p now m)) = S (idCounter m).
Proof.
  rewrite addItem_state.
  now destruct (compress_fields
                  (mkMiddleware (maxSize m) (preserveInstructionsAtStart m)
                     (instructionsContent m) (archiveThreshold m)
                     (items m ++ [fst (addItem c p now m)])
                     (archivedItems m) (S (idCounter m))))
    as (_ & _ & _ & _ & ->).
Qed.

(** X12: [addItem] under capacity: when the resident size plus the size of the
    new content is within the capacity, the new item is appended to the
    resident array and nothing is reordered or archived. *)
Theorem addItem_fits c p now m :
  getCurrentSize m + JS.ceil_div4 (String.length c) <= maxSize m ->
  items (snd (addItem c p now m)) = items m ++ [fst (addItem c p now m)] /\
  archivedItems (snd (addItem c p now m)) = archivedItems m /\
  archived (fst (addItem c p now m)) = false.
Proof.
  intros Hfit. rewrite addItem_state, compress_fits; [now repeat split|].
  unfold overCapacity, getCurrentSize in *. simpl.
  apply negb_false_iff, Z.leb_le.
  rewrite sizeOf_app, sizeOf_cons. change (sizeOf []) with 0.
  unfold itemSize at 1. simpl. lia.
Qed.

Lemma addItem_fits_witness :
  let m := run twin_options (firstn 1 twin_calls) in
  getCurrentSize m + JS.ceil_div4 (String.length "yyyyyyyy") <= maxSize m /\
  items (snd (addItem "yyyyyyyy" None date2 m))
  = items m ++ [fst (addItem "yyyyyyyy" None date2 m)].
Proof.
  split; [discriminate|].
  apply (addItem_fits "yyyyyyyy" None date2
           (run twin_options (firstn 1 twin_calls))).
  discriminate.
Defined.

(** X13: [addItem] adds exactly one item to the two arrays taken together,
    provided the resident items and the new item each pass exactly one of
    the tests [priority > 0.9] and [priority <= 0.9], as every priority
    that is a number does: whatever order the two sorts produce and
    whatever [compress] then moves, the identifiers held afterwards are
    the earlier ones plus the new one, the counter advances by one, and in
    a reachable state the new identifier was held by no item before. *)
Theorem addItem_adds_one critical regular sortByPriority sortForDisplay
    c p now m :
  (forall l, Permutation (sortByPriority l) l) ->
  (forall l, Permutation (sortForDisplay l) l) ->
  (forall i, In i (items m ++ [fst (addItem c p now m)]) ->
             critical i = negb (regular i)) ->
  let item :=
    fst (addItemWith critical regular sortByPriority sortForDisplay
           c p now m) in
  let m' :=
    snd (addItemWith critical regular sortByPriority sortForDisplay
           c p now m) in
  Permutation (all_ids m') (id item :: all_ids m) /\
  (List.length (items m') + List.length (archivedItems m')
   = S (List.length (items m) + List.length (archivedItems m)))%nat /\
  idCounter m' = S (idCounter m) /\
  (reachable m -> ~ In (id item) (all_ids m)).
Proof.
  intros HsortP HsortD Hone. cbv zeta. unfold addItemWith. cbn [fst snd].
  set (item := mkItem (newId m) c
                 match p with Some q => q | None => 1 # 2 end now false).
  set (m1 := mkMiddleware (maxSize m) (preserveInstructionsAtStart m)
               (instructionsContent m) (archiveThreshold m)
               (items m ++ [item]) (archivedItems m) (S (idCounter m))).
  destruct (compressWith_parts critical regular sortByPriority
              sortForDisplay HsortD m1) as (Harch & _ & _ & Hid).
  pose proof (compressWith_conserves critical regular sortByPriority
                sortForDisplay HsortD HsortP m1 Hone) as Hperm.
  assert (Permutation
            (all_ids
               (snd (compressWith critical regular sortByPriority
                       sortForDisplay m1)))
            (id item :: all_ids m)) as Hids.
  { unfold all_ids. rewrite Harch, ids_app, ids_set_archived.
    rewrite (Permutation_app_comm (ids (archivedItems m1))), app_assoc.
    rewrite <- ids_app, (ids_perm _ _ Hperm). simpl.
    rewrite ids_app, <- app_assoc. simpl. symmetry.
    apply Permutation_middle. }
  split; [exact Hids|]. split; [|split].
  - apply Permutation_length in Hids. unfold all_ids, ids in Hids.
    cbn [List.length] in Hids.
    rewrite !length_app, !length_map in Hids. exact Hids.
  - exact Hid.
  - intros Hr. now apply newId_fresh, reachable_wf.
Qed.

Lemma addItem_adds_one_witness :
  let m := run twin_options twin_calls in
  (forall l, Permutation (JS.sort byPriorityDesc l) l) /\
  (forall l, Permutation (JS.sort instructionsFirst l) l) /\
  (forall i, In i (items m ++ [fst (addItem "more" None date4 m)]) ->
             isCritical i = negb (isRegular i)) /\
  reachable m /\
  ~ In (id (fst (addItem "more" None date4 m))) (all_ids m).
Proof.
  assert (reachable (run twin_options twin_calls)) as Hr
    by (now exists twin_options, twin_calls).
  split; [apply sort_perm|]. split; [apply sort_perm|].
  split; [intros i _; apply isCritical_negb|]. split; [exact Hr|].
  exact (proj2 (proj2 (proj2
           (addItem_adds_one isCritical isRegular
              (JS.sort byPriorityDesc) (JS.sort instructionsFirst)
              "more" None date4 _ (sort_perm byPriorityDesc)
              (sort_perm instructionsFirst)
              (fun i _ => isCritical_negb i)))) Hr).
Defined.

Lemma idCounter_compress m : idCounter (snd (compress m)) = idCounter m.
Proof. now destruct (compress_fields m) as (_ & _ & _ & _ & ->). Qed.

Lemma idCounter_call m c : (idCounter m <= idCounter (call m c))%nat.
Proof.
  destruct c as [c p now|itemId p|itemId|itemId| | | | |size|text|n];
    cbn [call].
  - rewrite addItem_idCounter. lia.
  - unfold updatePriority. destruct (find _ _); simpl; lia.
  - unfold removeItem. destruct (JS.findIndex _ _); simpl; lia.
  - unfold restoreItem. destruct (JS.findIndex _ _) as [i|]; simpl; [|lia].
    destruct (nth_error _ _); cbn [snd]; [|lia].
    rewrite idCounter_compress. simpl. lia.
  - simpl. lia.
  - rewrite idCounter_compress. lia.
  - simpl. lia.
  - simpl. lia.
  - unfold setMaxSize. rewrite idCounter_compress. simpl. lia.
  - simpl. lia.
  - rewrite summarizeArchived_state. simpl. lia.
Qed.

Lemma idCounter_fold calls : forall m,
  (idCounter m <= idCounter (fold_left call calls m))%nat.
Proof.
  induction calls as [|c cs IH]; intros m; simpl; [lia|].
  pose proof (idCounter_call m c). specialize (IH (call m c)). lia.
Qed.

Lemma newId_inj m1 m2 : newId m1 = newId m2 -> idCounter m1 = idCounter m2.
Proof.
  unfold newId. intros E. injection E as E. apply decimal_inj in E. lia.
Qed.

(** X14: Identifiers are never reused: the identifier handed out by an
    [addItem] differs from the one handed out by any later [addItem],
    whatever calls come in between, [removeItem], [clear] and
    [clearArchived] included. *)
Theorem identifiers_never_reused c p now m calls c' p' now' :
  let first := addItem c p now m in
  let later := addItem c' p' now' (fold_left call calls (snd first)) in
  id (fst later) <> id (fst first).
Proof.
  cbv zeta. rewrite !addItem_id. intros E. apply newId_inj in E.
  pose proof (idCounter_fold calls (snd (addItem c p now m))) as Hle.
  rewrite addItem_idCounter in Hle. lia.
Qed.

Lemma addItems_cons c p now rest m :
  addItems ((c, p, now) :: rest) m
  = (fst (addItem c p now m)
       :: fst (addItems rest (snd (addItem c p now m))),
     snd (addItems rest (snd (addItem c p now m)))).
Proof.
  cbn [addItems]. destruct (addItem c p now m) as [item m1]. cbn [fst snd].
  now destruct (addItems rest m1).
Qed.

Lemma addItems_ids_later l : forall m s,
  In s (ids (fst (addItems l m))) ->
  exists k, (idCounter m < k)%nat /\ s = ("ctx_" ++ JS.decimal k)%string.
Proof.
  induction l as [|[[c p] now] rest IH]; intros m s; [contradiction|].
  rewrite addItems_cons. cbn [fst ids map].
  intros [<- | Hin].
  - exists (S (idCounter m)). split; [lia | reflexivity].
  - destruct (IH _ _ Hin) as (k & Hk & ->).
    rewrite addItem_idCounter in Hk. exists k. split; [lia | reflexivity].
Qed.

(** X15: [addItems] is [addItem] applied to the elements from left to right: it
    returns one item per element, the returned identifiers are pairwise
    distinct, and the state is the one reached by the corresponding
    sequence of [addItem] calls. *)
Theorem addItems_is_repeated_addItem l m :
  snd (addItems l m) = fold_left call (map addCall l) m /\
  List.length (fst (addItems l m)) = List.length l /\
  NoDup (ids (fst (addItems l m))).
Proof.
  revert m. induction l as [|[[c p] now] rest IH]; intros m.
  - repeat split. constructor.
  - rewrite addItems_cons. cbn [fst snd map fold_left addCall call].
    destruct (IH (snd (addItem c p now m))) as (Hs & Hl & Hnd).
    split; [exact Hs|]. split; [cbn [List.length]; now rewrite Hl|].
    cbn [ids map]. constructor; [|exact Hnd].
    intros Hin. apply addItems_ids_later in Hin as (k & Hk & E).
    rewrite addItem_idCounter in Hk. rewrite addItem_id in E.
    unfold newId in E. injection E as E. apply decimal_inj in E. lia.
Qed.

(** ** The archive *)

(** X16: [addItem], [updatePriority], [removeItem], [archiveLowPriority],
    [compress], [setMaxSize] and [setInstructions] never remove or reorder
    an entry of the archive: the archive after the call is the archive
    before it followed by the newly archived items. *)
Theorem archive_only_grows m c :
  appendsToArchive c = true ->
  exists suffix, archivedItems (call m c) = archivedItems m ++ suffix.
Proof.
  destruct c as [c p now|itemId p|itemId|itemId| | | | |size|text|n];
    cbn [appendsToArchive call]; intros H; try discriminate.
  - rewrite addItem_state, compress_archivedItems. simpl. eauto.
  - exists []. unfold updatePriority. rewrite app_nil_r.
    now destruct (find _ _).
  - exists []. unfold removeItem. rewrite app_nil_r.
    now destruct (JS.findIndex _ _).
  - simpl. eauto.
  - rewrite compress_archivedItems. eauto.
  - unfold setMaxSize. rewrite compress_archivedItems. simpl. eauto.
  - exists []. simpl. now rewrite app_nil_r.
Qed.

Lemma archive_only_grows_witness :
  appendsToArchive (CSetMaxSize 3) = true /\
  exists suffix,
    archivedItems (call three_items (CSetMaxSize 3))
    = archivedItems three_items ++ suffix.
Proof.
  split; [reflexivity|].
  apply (archive_only_grows three_items (CSetMaxSize 3)). reflexivity.
Defined.

(** ** [summarizeArchived] *)

Lemma byTimestampDesc_le a b :
  Qle_bool (byTimestampDesc a b) 0 = true <-> timestampDesc a b.
Proof.
  unfold byTimestampDesc, timestampDesc. rewrite Qle_bool_inject_Z. lia.
Qed.

Lemma byTimestampDesc_gt a b :
  Qle_bool (byTimestampDesc a b) 0 = false -> timestampDesc b a.
Proof.
  intros H. unfold timestampDesc.
  destruct (Z_le_gt_dec (getTime (timestamp a)) (getTime (timestamp b)))
    as [Hle | Hgt]; [exact Hle|].
  assert (timestampDesc a b) as Hd by (unfold timestampDesc; lia).
  apply byTimestampDesc_le in Hd. congruence.
Qed.

Lemma sort_byTimestampDesc_twice l :
  JS.sort byTimestampDesc (JS.sort byTimestampDesc l)
  = JS.sort byTimestampDesc l.
Proof.
  apply sort_fixed. apply sort_sorted.
  - trivial.
  - intros x y H. apply byTimestampDesc_le, byTimestampDesc_gt, H.
  - intros x y z H1 H2. apply byTimestampDesc_le.
    apply byTimestampDesc_le in H1, H2. unfold timestampDesc in *. lia.
Qed.

(** X17: The only effect of [summarizeArchived] on the state is the order of the
    archive: the archive holds the same items, sorted by descending
    creation time, every other field is unchanged, and a further call
    changes nothing more. *)
Theorem summarizeArchived_effect n n' m :
  let m' := snd (summarizeArchived n m) in
  m' = with_archivedItems (archivedItems m') m /\
  Permutation (archivedItems m') (archivedItems m) /\
  StronglySorted timestampDesc (archivedItems m') /\
  snd (summarizeArchived n' m') = m'.
Proof.
  cbv zeta. rewrite !summarizeArchived_state. simpl.
  split; [reflexivity|]. split; [apply sort_perm|]. split.
  - apply sort_sorted.
    + intros x y. apply byTimestampDesc_le.
    + apply byTimestampDesc_gt.
    + unfold timestampDesc. intros x y z H1 H2. lia.
  - unfold with_archivedItems. simpl.
    now rewrite sort_byTimestampDesc_twice.
Qed.

Lemma firstn_nil_iff {A : Type} k (l : list A) :
  firstn k l = [] <-> k = O \/ l = [].
Proof.
  destruct k, l; simpl; split; auto; try discriminate.
  intros [H | H]; discriminate.
Qed.

Lemma slice0_nil_iff {A : Type} n (l : list A) :
  JS.slice0 n l = [] <->
  l = [] \/ n = 0 \/ n <= - Z.of_nat (List.length l).
Proof.
  unfold JS.slice0. destruct (n <? 0) eqn:E; rewrite firstn_nil_iff.
  - apply Z.ltb_lt in E. split.
    + intros [H | H]; [right; right; lia | now left].
    + intros [H | [H | H]]; [now right | lia | left; lia].
  - apply Z.ltb_ge in E. split.
    + intros [H | H]; [right; left; lia | now left].
    + intros [H | [H | H]]; [now right | left; lia | left; lia].
Qed.

(** X18: [summarizeArchived(n)] returns the message "No archived items to
    summarize." exactly when the archive is empty or the limit selects
    nothing: [n = 0], or [n] negative and at least as large in magnitude
    as the archive. *)
Theorem summarizeArchived_nothing_iff n m :
  fst (summarizeArchived (Some n) m) = noArchived <->
  archivedItems m = [] \/ n = 0 \/
  n <= - Z.of_nat (List.length (archivedItems m)).
Proof.
  assert (List.length (JS.sort byTimestampDesc (archivedItems m))
          = List.length (archivedItems m)) as Hlen
    by (apply Permutation_length, sort_perm).
  assert (JS.sort byTimestampDesc (archivedItems m) = []
          <-> archivedItems m = []) as Hnil.
  { split; intros H.
    - rewrite H in Hlen. now destruct (archivedItems m).
    - rewrite H. reflexivity. }
  rewrite <- Hnil, <- Hlen, <- slice0_nil_iff.
  unfold summarizeArchived.
  destruct (JS.slice0 n (JS.sort byTimestampDesc (archivedItems m)));
    cbn [fst]; split; intros H; try reflexivity; discriminate.
Qed.

Lemma summarizeArchived_nothing_iff_witness :
  fst (summarizeArchived (Some 0) two_archived) = noArchived.
Proof.
  apply (proj2 (summarizeArchived_nothing_iff 0 two_archived)).
  right. left. reflexivity.
Defined.

(** * Properties of the profiler *)

Module ProfilerFacts.
Import Profiler.

(** ** The map of agents *)

Lemma fold_total (g : AgentMetrics -> Z) l : forall a,
  fold_left (fun t (kv : string * AgentMetrics) => t + g (snd kv)) l a
  = a + fold_left (fun t (kv : string * AgentMetrics) => t + g (snd kv)) l 0.
Proof.
  induction l as [|kv rest IH]; intros a; simpl; [lia|].
  rewrite IH, (IH (g (snd kv))). lia.
Qed.

Lemma isKey_true key kv : isKey key kv = true <-> fst kv = key.
Proof. apply String.eqb_eq. Qed.

Lemma isKey_false key kv : isKey key kv = false <-> fst kv <> key.
Proof. apply String.eqb_neq. Qed.

Lemma Map_get_In key l a : Map_get key l = Some a -> In (key, a) l.
Proof.
  unfold Map_get. destruct (find (isKey key) l) as [kv|] eqn:E;
    [|discriminate].
  simpl. intros H. injection H as <-. apply find_some in E as [Hin Hk].
  apply isKey_true in Hk. destruct kv as [k v]. simpl in *. now subst.
Qed.

Lemma Map_get_None key l : Map_get key l = None <-> ~ In key (keys l).
Proof.
  unfold Map_get, keys. split.
  - destruct (find (isKey key) l) eqn:E; [discriminate|]. intros _ Hin.
    apply in_map_iff in Hin as (kv & Hk & Hin).
    pose proof (find_none _ _ E kv Hin) as Hf.
    apply isKey_false in Hf. contradiction.
  - intros Hno. destruct (find (isKey key) l) as [kv|] eqn:E;
      [|reflexivity].
    apply find_some in E as [Hin Hk]. apply isKey_true in Hk.
    exfalso. apply Hno. rewrite <- Hk. now apply in_map.
Qed.

Lemma Map_get_unique key l a b :
  NoDup (keys l) -> Map_get key l = Some a -> In (key, b) l -> a = b.
Proof.
  intros Hnd Hget Hin. apply Map_get_In in Hget.
  induction l as [|[k v] rest IH]; [contradiction|].
  simpl in Hnd. inversion Hnd as [|? ? Hk Hnd']; subst.
  destruct Hget as [E1 | H1], Hin as [E2 | H2].
  - congruence.
  - injection E1 as -> ->. exfalso. apply Hk.
    now apply (in_map fst) in H2.
  - injection E2 as -> ->. exfalso. apply Hk.
    now apply (in_map fst) in H1.
  - now apply IH.
Qed.

Lemma keys_update key f l : keys (Map_update key f l) = keys l.
Proof.
  induction l as [|kv rest IH]; simpl; [reflexivity|].
  destruct (isKey key kv); simpl; [reflexivity | now rewrite IH].
Qed.

Lemma Map_update_other key f l k a :
  k <> key -> In (k, a) (Map_update key f l) -> In (k, a) l.
Proof.
  intros Hk. induction l as [|[k0 v0] rest IH]; simpl; [contradiction|].
  destruct (isKey key (k0, v0)) eqn:E; simpl.
  - apply isKey_true in E. simpl in E. subst k0.
    intros [H | H]; [congruence | now right].
  - intros [H | H]; [now left | right; now apply IH].
Qed.

Lemma Map_update_same key f l a :
  NoDup (keys l) -> In (key, a) (Map_update key f l) ->
  exists b, In (key, b) l /\ a = f b.
Proof.
  induction l as [|[k0 v0] rest IH]; simpl; [contradiction|].
  intros Hnd. inversion Hnd as [|? ? Hk Hnd']; subst.
  destruct (isKey key (k0, v0)) eqn:E; simpl.
  - apply isKey_true in E. simpl in E. subst k0.
    intros [H | H].
    + injection H as <-. exists v0. split; [now left | reflexivity].
    + exfalso. apply Hk. now apply (in_map fst) in H.
  - apply isKey_false in E. simpl in E.
    intros [H | H]; [congruence|].
    destruct (IH Hnd' H) as (b & Hb & ->). exists b.
    split; [now right | reflexivity].
Qed.

Lemma Map_get_update key v l :
  Map_get key l <> None ->
  Map_get key (Map_update key (fun _ => v) l) = Some v.
Proof.
  unfold Map_get. induction l as [|kv rest IH]; simpl; [congruence|].
  destruct (isKey key kv) eqn:E; simpl.
  - intros _. unfold isKey in *. simpl. now rewrite E.
  - rewrite E. exact IH.
Qed.

Lemma total_update (g : AgentMetrics -> Z) key f l a d :
  Map_get key l = Some a -> g (f a) = g a + d ->
  fold_left (fun t (kv : string * AgentMetrics) => t + g (snd kv))
    (Map_update key f l) 0
  = fold_left (fun t (kv : string * AgentMetrics) => t + g (snd kv)) l 0 + d.
Proof.
  unfold Map_get. induction l as [|kv rest IH]; simpl; [discriminate|].
  destruct (isKey key kv) eqn:E; simpl.
  - intros H Hg. injection H as <-.
    rewrite (fold_total g rest (g (f (snd kv)))),
      (fold_total g rest (g (snd kv))). lia.
  - intros H Hg.
    rewrite (fold_total g _ (g (snd kv))), (fold_total g rest (g (snd kv))).
    rewrite (IH H Hg). lia.
Qed.

(** ** What the methods leave alone *)

Lemma checkBottleneck_frame agent p :
  agents (checkBottleneck agent p) = agents p /\
  events (checkBottleneck agent p) = events p /\
  alertOnBottleneck (checkBottleneck agent p) = alertOnBottleneck p /\
  alertCallbacks (checkBottleneck agent p) = alertCallbacks p.
Proof.
  unfold checkBottleneck.
  destruct (JS.gt _ _ && _); [|now repeat split].
  destruct (negb _); now repeat split.
Qed.

Lemma sumTokens_app l1 l2 :
  sumTokens (l1 ++ l2) = sumTokens l1 + sumTokens l2.
Proof.
  unfold sumTokens. induction l1 as [|e rest IH]; simpl; [reflexivity|].
  rewrite IH. lia.
Qed.

Lemma trackAgent_agents id name p :
  agents (trackAgent id name p) = agents p \/
  (Map_get id (agents p) = None /\
   agents (trackAgent id name p)
   = agents p ++ [(id, mkMetrics id name 0 0 (Finite 0) 0 0)]).
Proof.
  unfold trackAgent, Map_set, Map_has.
  destruct (Map_get id (agents p)) eqn:E; simpl; [now left|].
  right. now split.
Qed.

Lemma trackAgent_events id name p :
  events (trackAgent id name p) = events p.
Proof. unfold trackAgent. now destruct (negb _). Qed.

(** ** Tokens *)

Lemma getTotalTokens_trackAgent id name p :
  getTotalTokens (trackAgent id name p) = getTotalTokens p.
Proof.
  unfold getTotalTokens.
  destruct (trackAgent_agents id name p) as [-> | [_ ->]]; [reflexivity|].
  rewrite fold_left_app. simpl. lia.
Qed.

Lemma tokens_call p c :
  getTotalTokens p = sumTokens (filter isEnd (events p)) ->
  getTotalTokens (call p c) = sumTokens (filter isEnd (events (call p c))).
Proof.
  intros H.
  destruct c as [id name|id name stamp|id used now stamp|id err stamp
                |id size limit stamp|cb|now]; cbn [call].
  - now rewrite getTotalTokens_trackAgent, trackAgent_events.
  - unfold recordStart, push_event. simpl.
    rewrite trackAgent_events, filter_app. simpl. rewrite app_nil_r.
    change (getTotalTokens (trackAgent id name p)
            = sumTokens (filter isEnd (events p))).
    now rewrite getTotalTokens_trackAgent.
  - unfold recordEnd. destruct (Map_get id (agents p)) as [agent|] eqn:E;
      [|exact H].
    cbv zeta.
    match goal with |- context [checkBottleneck ?a ?q] =>
      destruct (checkBottleneck_frame a q) as (Ha & He & _);
      unfold getTotalTokens; rewrite Ha, He end.
    simpl. rewrite filter_app, sumTokens_app. simpl.
    rewrite (total_update tokensUsed id _ _ agent used E) by reflexivity.
    unfold getTotalTokens in H. rewrite H. unfold sumTokens, tokensOf.
    simpl. lia.
  - unfold recordError, push_event, getTotalTokens. simpl.
    rewrite filter_app. simpl. rewrite app_nil_r.
    destruct (Map_get id (agents p)) as [agent|] eqn:E; simpl; [|exact H].
    rewrite (total_update tokensUsed id _ _ agent 0 E) by (simpl; lia).
    unfold getTotalTokens in H. lia.
  - unfold recordContext.
    destruct (Map_get id (agents p)) as [agent|] eqn:E; [|exact H].
    destruct (negb (trackContextUtilization p)); [exact H|].
    unfold push_event, getTotalTokens. simpl.
    rewrite filter_app. simpl. rewrite app_nil_r.
    rewrite (total_update tokensUsed id _ _ agent 0 E) by (simpl; lia).
    unfold getTotalTokens in H. lia.
  - exact H.
  - reflexivity.
Qed.

Lemma tokens_fold calls : forall p,
  getTotalTokens p = sumTokens (filter isEnd (events p)) ->
  getTotalTokens (fold_left call calls p)
  = sumTokens (filter isEnd (events (fold_left call calls p))).
Proof.
  induction calls as [|c cs IH]; intros p H; simpl; [exact H|].
  now apply IH, tokens_call.
Qed.

(** X19: The total of [getTotalTokens] is the sum of the token counts of the
    end events in the log: tokens are counted only by a [recordEnd] on a
    tracked agent, which logs them, and [reset] clears both. *)
Theorem total_tokens_match_log p :
  reachable p -> getTotalTokens p = sumTokens (filter isEnd (events p)).
Proof.
  intros (options & now & calls & ->). now apply tokens_fold.
Qed.

Lemma total_tokens_match_log_witness :
  reachable example_profile /\
  getTotalTokens example_profile
  = sumTokens (filter isEnd (events example_profile)).
Proof.
  assert (reachable example_profile) as Hr.
  { exists (mkProfilerOptions "wf" None (Some true)), 0,
      [COnBottleneck 7%nat;
       CRecordStart "a1" "planner" date1;
       CRecordEnd "a1" 100 11 date2;
       CRecordEnd "a1" 50 21 date3;
       CRecordEnd "a1" 25 31 date4].
    reflexivity. }
  split; [exact Hr|]. exact (total_tokens_match_log _ Hr).
Defined.

(** ** Metrics and the log *)

Lemma isEndOf_isEnd k e : isEndOf k e = true -> isEnd e = true.
Proof. unfold isEndOf, isEnd. now destruct (type e). Qed.

Lemma isEndOf_id k e : isEndOf k e = true -> ev_agentId e = k.
Proof.
  unfold isEndOf. destruct (type e); try discriminate. apply String.eqb_eq.
Qed.

Lemma consistent_ext p p' :
  agents p' = agents p -> events p' = events p ->
  consistent p -> consistent p'.
Proof. unfold consistent. now intros -> ->. Qed.

Lemma filter_push_other (f : ProfilerEvent -> bool) l e :
  f e = false -> filter f (l ++ [e]) = filter f l.
Proof. intros H. rewrite filter_app. simpl. now rewrite H, app_nil_r. Qed.

Lemma filter_push_same (f : ProfilerEvent -> bool) l e :
  f e = true -> filter f (l ++ [e]) = filter f l ++ [e].
Proof. intros H. rewrite filter_app. simpl. now rewrite H. Qed.

Lemma consistent_push_other e p :
  isEnd e = false -> consistent p -> consistent (push_event e p).
Proof.
  intros He (Hnd & Hent & Haux).
  assert (forall k, isEndOf k e = false) as Hk.
  { intros k. destruct (isEndOf k e) eqn:E; [|reflexivity].
    apply isEndOf_isEnd in E. congruence. }
  split; [exact Hnd|]. split; simpl.
  - intros k a Hin. rewrite (filter_push_other _ _ _ (Hk k)).
    now apply Hent.
  - intros e' Hin He'. apply in_app_or in Hin as [Hin | [<- | []]];
      [now apply Haux | congruence].
Qed.

Lemma consistent_update_minor id f p :
  (forall b, agentId (f b) = agentId b /\ calls (f b) = calls b /\
             tokensUsed (f b) = tokensUsed b /\
             (0 <= errors b -> 0 <= errors (f b))) ->
  consistent p -> consistent (with_agents (Map_update id f (agents p)) p).
Proof.
  intros Hf (Hnd & Hent & Haux). split; [|split]; simpl.
  - now rewrite keys_update.
  - intros k a Hin. destruct (String.eqb_spec k id) as [-> | Hne].
    + apply (Map_update_same _ _ _ _ Hnd) in Hin as (b & Hb & ->).
      destruct (Hf b) as (-> & -> & -> & He).
      destruct (Hent id b Hb) as (H1 & H2 & H3 & H4). auto.
    + apply Hent. now apply (Map_update_other id f).
  - intros e Hin He. rewrite keys_update. now apply Haux.
Qed.

Lemma consistent_trackAgent id name p :
  consistent p -> consistent (trackAgent id name p).
Proof.
  intros Hc.
  destruct (trackAgent_agents id name p) as [E | [Hnone E]].
  - apply (consistent_ext p); [exact E | apply trackAgent_events | exact Hc].
  - destruct Hc as (Hnd & Hent & Haux).
    apply Map_get_None in Hnone.
    assert (filter (isEndOf id) (events p) = []) as Hno.
    { apply filter_none. intros e Hin.
      destruct (isEndOf id e) eqn:Ee; [|reflexivity]. exfalso.
      apply Hnone. rewrite <- (isEndOf_id _ _ Ee).
      apply Haux; [exact Hin | now apply isEndOf_isEnd in Ee]. }
    unfold consistent. rewrite E, trackAgent_events. split; [|split].
    + unfold keys. rewrite map_app. simpl. apply NoDup_app.
      * exact Hnd.
      * repeat constructor. intros [].
      * intros k Hk [<- | []]. contradiction.
    + intros k a Hin. apply in_app_or in Hin as [Hin | [Hin | []]].
      * now apply Hent.
      * injection Hin as <- <-. rewrite Hno. simpl.
        repeat split; reflexivity || lia.
    + intros e Hin He. unfold keys. rewrite map_app. apply in_or_app.
      left. now apply Haux.
Qed.

Lemma consistent_recordEnd id used now stamp p :
  consistent p -> consistent (recordEnd id used now stamp p).
Proof.
  intros Hc. unfold recordEnd.
  destruct (Map_get id (agents p)) as [agent|] eqn:E; [|exact Hc].
  cbv zeta.
  match goal with |- consistent (checkBottleneck ?a ?q) =>
    destruct (checkBottleneck_frame a q) as (Ha & He & _);
    apply (consistent_ext q); [exact Ha | exact He |] end.
  destruct Hc as (Hnd & Hent & Haux).
  pose proof (Map_get_In _ _ _ E) as Hin0.
  destruct (Hent id agent Hin0) as (H1 & H2 & H3 & H4).
  split; [|split]; simpl.
  - now rewrite keys_update.
  - intros k a Hin. destruct (String.eqb_spec k id) as [-> | Hne].
    + apply (Map_update_same _ _ _ _ Hnd) in Hin as (b & Hb & ->).
      rewrite filter_push_same
        by (unfold isEndOf; simpl; apply String.eqb_refl).
      rewrite length_app, sumTokens_app.
      pose proof (Map_get_unique _ _ _ _ Hnd E Hb) as <-.
      unfold sumTokens at 2, tokensOf. simpl.
      repeat split; try assumption; try lia.
    + rewrite filter_push_other.
      * apply Hent. now apply (Map_update_other id (fun _ => ended used
          match lastStart id (events p) with
          | Some startEvent => now - getTime (ev_timestamp startEvent)
          | None => 0
          end agent)).
      * unfold isEndOf. simpl. apply String.eqb_neq.
        intros Heq. apply Hne. now symmetry.
  - intros e Hin He'. rewrite keys_update.
    apply in_app_or in Hin as [Hin | [<- | []]]; [now apply Haux|].
    simpl. now apply (in_map fst) in Hin0.
Qed.

Lemma consistent_call p c : consistent p -> consistent (call p c).
Proof.
  intros Hc.
  destruct c as [id name|id name stamp|id used now stamp|id err stamp
                |id size limit stamp|cb|now]; cbn [call].
  - now apply consistent_trackAgent.
  - unfold recordStart. apply consistent_push_other; [reflexivity|].
    now apply consistent_trackAgent.
  - now apply consistent_recordEnd.
  - unfold recordError. apply consistent_push_other; [reflexivity|].
    destruct (Map_get id (agents p)); [|exact Hc].
    apply consistent_update_minor; [|exact Hc].
    intros b. simpl. repeat split. lia.
  - unfold recordContext. destruct (Map_get id (agents p)); [|exact Hc].
    destruct (negb (trackContextUtilization p)); [exact Hc|].
    apply consistent_push_other; [reflexivity|].
    apply consistent_update_minor; [|exact Hc].
    intros b. simpl. now repeat split.
  - now apply (consistent_ext p).
  - repeat split; simpl; try constructor; contradiction.
Qed.

Lemma consistent_fold calls : forall p,
  consistent p -> consistent (fold_left call calls p).
Proof.
  induction calls as [|c cs IH]; intros p H; simpl; [exact H|].
  now apply IH, consistent_call.
Qed.

Lemma reachable_consistent p : reachable p -> consistent p.
Proof.
  intros (options & now & calls & ->). apply consistent_fold.
  repeat split; simpl; try constructor; contradiction.
Qed.

(** X20: In every reachable state each tracked agent is stored under its own
    identifier, no identifier is tracked twice, and the agent's call count
    and token total are the number and the token sum of the end events
    logged for it. *)
Theorem metrics_match_log p k a :
  reachable p -> In (k, a) (agents p) ->
  agentId a = k /\
  Map_get k (agents p) = Some a /\
  calls a = Z.of_nat (List.length (filter (isEndOf k) (events p))) /\
  tokensUsed a = sumTokens (filter (isEndOf k) (events p)).
Proof.
  intros Hr Hin. destruct (reachable_consistent p Hr) as (Hnd & Hent & _).
  destruct (Hent k a Hin) as (H1 & H2 & H3 & _).
  repeat split; try assumption.
  destruct (Map_get k (agents p)) as [b|] eqn:E.
  - f_equal. now apply (Map_get_unique k (agents p)).
  - apply Map_get_None in E. exfalso. apply E.
    now apply (in_map fst) in Hin.
Qed.

Lemma example_profile_reachable : reachable example_profile.
Proof.
  exists (mkProfilerOptions "wf" None (Some true)), 0,
    [COnBottleneck 7%nat;
     CRecordStart "a1" "planner" date1;
     CRecordEnd "a1" 100 11 date2;
     CRecordEnd "a1" 50 21 date3;
     CRecordEnd "a1" 25 31 date4].
  reflexivity.
Qed.

Lemma metrics_match_log_witness :
  let a := mkMetrics "a1" "planner" 175 60 (Finite 0) 3 0 in
  reachable example_profile /\
  In ("a1"%string, a) (agents example_profile) /\
  calls a
  = Z.of_nat
      (List.length (filter (isEndOf "a1") (events example_profile))).
Proof.
  assert (In ("a1"%string, mkMetrics "a1" "planner" 175 60 (Finite 0) 3 0)
            (agents example_profile)) as Hin by (now left).
  split; [exact example_profile_reachable|]. split; [exact Hin|].
  exact (proj1 (proj2 (proj2
           (metrics_match_log _ _ _ example_profile_reachable Hin)))).
Defined.

(** ** Start events and [recordEnd] *)

Lemma Map_get_app_new key v l :
  Map_get key l = None -> Map_get key (l ++ [(key, v)]) = Some v.
Proof.
  unfold Map_get. induction l as [|kv rest IH]; simpl.
  - intros _. unfold isKey. simpl. now rewrite String.eqb_refl.
  - destruct (isKey key kv); [discriminate | exact IH].
Qed.

Lemma trackAgent_tracked id name p :
  Map_get id (agents (trackAgent id name p)) <> None.
Proof.
  destruct (trackAgent_agents id name p) as [E | [Hnone E]]; rewrite E.
  - unfold trackAgent, Map_has in E.
    destruct (Map_get id (agents p)) eqn:Eg; [discriminate|].
    simpl in E. unfold Map_set, Map_has in E. rewrite Eg in E.
    apply (f_equal (@List.length _)) in E. rewrite length_app in E.
    simpl in E. lia.
  - now rewrite Map_get_app_new.
Qed.

Lemma lastStart_push_start id name s l :
  lastStart id (l ++ [mkEvent Start id name s None None None None])
  = Some (mkEvent Start id name s None None None None).
Proof.
  unfold lastStart. rewrite filter_push_same
    by (unfold isStartOf; simpl; apply String.eqb_refl).
  rewrite map_app. simpl. apply last_last.
Qed.

Lemma lastStart_push_other id l e :
  isStartOf id e = false -> lastStart id (l ++ [e]) = lastStart id l.
Proof.
  intros H. unfold lastStart. now rewrite filter_push_other.
Qed.

Lemma recordEnd_tracked id used now stamp p a :
  Map_get id (agents p) = Some a ->
  let executionTime :=
    match lastStart id (events p) with
    | Some startEvent => now - getTime (ev_timestamp startEvent)
    | None => 0
    end in
  Map_get id (agents (recordEnd id used now stamp p))
  = Some (ended used executionTime a) /\
  events (recordEnd id used now stamp p)
  = events p
    ++ [mkEvent End_ id (agentName a) stamp (Some used) None None None].
Proof.
  intros E. cbv zeta. unfold recordEnd. rewrite E. cbv zeta.
  match goal with |- context [checkBottleneck ?x ?q] =>
    destruct (checkBottleneck_frame x q) as (Ha & He & _);
    rewrite Ha, He end.
  simpl. split; [|reflexivity].
  apply Map_get_update. congruence.
Qed.

(** X21: A start event is not used up by [recordEnd]: after one [recordStart],
    each of two successive [recordEnd] calls measures its execution time
    from that same start event, so the time from the start to the first end
    is counted again by the second; both calls count as a call. *)
Theorem start_event_is_reused id name s used1 now1 st1 used2 now2 st2 p :
  let p1 := recordStart id name s p in
  let p2 := recordEnd id used1 now1 st1 p1 in
  let p3 := recordEnd id used2 now2 st2 p2 in
  exists a1 a2 a3,
    Map_get id (agents p1) = Some a1 /\
    Map_get id (agents p2) = Some a2 /\
    Map_get id (agents p3) = Some a3 /\
    executionTimeMs a2 = executionTimeMs a1 + (now1 - getTime s) /\
    executionTimeMs a3 = executionTimeMs a2 + (now2 - getTime s) /\
    calls a3 = calls a1 + 2.
Proof.
  cbv zeta.
  destruct (Map_get id (agents (recordStart id name s p))) as [a1|] eqn:E1.
  2: { exfalso. unfold recordStart, push_event in E1. simpl in E1.
       now apply (trackAgent_tracked id name p). }
  destruct (recordEnd_tracked id used1 now1 st1 _ a1 E1) as [E2 Hev2].
  destruct (recordEnd_tracked id used2 now2 st2 _ _ E2) as [E3 _].
  rewrite Hev2 in E3.
  rewrite lastStart_push_other in E3 by reflexivity.
  assert (lastStart id (events (recordStart id name s p))
          = Some (mkEvent Start id name s None None None None)) as Hs.
  { unfold recordStart, push_event. simpl. apply lastStart_push_start. }
  rewrite Hs in E2, E3. simpl in E2, E3.
  eexists _, _, _. split; [reflexivity|]. split; [exact E2|].
  split; [exact E3|]. simpl. repeat split; lia.
Qed.

(** ** Rankings *)

Lemma slice0_firstn {A : Type} n (l : list A) :
  exists k, JS.slice0 n l = firstn k l.
Proof. unfold JS.slice0. destruct (n <? 0); eauto. Qed.

Lemma firstn_In {A : Type} k (l : list A) x : In x (firstn k l) -> In x l.
Proof.
  intros H. rewrite <- (firstn_skipn k l). apply in_or_app. now left.
Qed.

Lemma StronglySorted_firstn {A : Type} (R : A -> A -> Prop) l : forall k,
  StronglySorted R l -> StronglySorted R (firstn k l).
Proof.
  induction l as [|x xs IH]; intros k Hs.
  - rewrite firstn_nil. constructor.
  - destruct k as [|k]; simpl; [constructor|].
    apply StronglySorted_inv in Hs as [Hs Hall]. constructor.
    + now apply IH.
    + rewrite Forall_forall in *. intros y Hy. apply Hall.
      now apply firstn_In in Hy.
Qed.

Lemma ranking_sorted (key : AgentMetrics -> Z) l :
  StronglySorted (fun a b => key b <= key a)
    (JS.sort (fun a b => inject_Z (key b - key a)) l).
Proof.
  apply sort_sorted.
  - intros x y H. apply Qle_bool_inject_Z in H. lia.
  - intros x y H.
    destruct (Z_le_gt_dec (key x) (key y)) as [Hle | Hgt]; [exact Hle|].
    assert (Qle_bool (inject_Z (key y - key x)) 0 = true) as E
      by (apply Qle_bool_inject_Z; lia).
    congruence.
  - intros x y z H1 H2. lia.
Qed.

(** X22: [getTopConsumers] and [getTopSlowest] return tracked agents only, in
    descending order of tokens and of execution time, at most as many as
    there are agents and, for a non-negative limit, exactly the smaller of
    the limit and the number of agents. *)
Theorem rankings_sorted_and_bounded limit p :
  let n := match limit with Some n => n | None => 5 end in
  (StronglySorted tokensDesc (getTopConsumers limit p) /\
   StronglySorted timeDesc (getTopSlowest limit p)) /\
  (forall a, In a (getTopConsumers limit p) \/ In a (getTopSlowest limit p)
             -> In a (getAllAgents p)) /\
  (0 <= n ->
   List.length (getTopConsumers limit p)
   = Nat.min (Z.to_nat n) (List.length (agents p)) /\
   List.length (getTopSlowest limit p)
   = Nat.min (Z.to_nat n) (List.length (agents p))).
Proof.
  cbv zeta. unfold getTopConsumers, getTopSlowest.
  set (n := match limit with Some n => n | None => 5 end).
  split; [split|split].
  - destruct (slice0_firstn n (JS.sort byTokensDesc (getAllAgents p)))
      as [k ->].
    apply StronglySorted_firstn. apply (ranking_sorted tokensUsed).
  - destruct (slice0_firstn n (JS.sort byTimeDesc (getAllAgents p)))
      as [k ->].
    apply StronglySorted_firstn. apply (ranking_sorted executionTimeMs).
  - intros a [H | H].
    + destruct (slice0_firstn n (JS.sort byTokensDesc (getAllAgents p)))
        as [k E]. rewrite E in H. apply firstn_In in H.
      now apply sort_In in H.
    + destruct (slice0_firstn n (JS.sort byTimeDesc (getAllAgents p)))
        as [k E]. rewrite E in H. apply firstn_In in H.
      now apply sort_In in H.
  - intros Hn. unfold JS.slice0.
    assert ((n <? 0) = false) as -> by (apply Z.ltb_ge; lia).
    rewrite !length_firstn.
    rewrite !(Permutation_length (sort_perm _ _)).
    unfold getAllAgents. now rewrite length_map.
Qed.

Lemma rankings_sorted_and_bounded_witness :
  0 <= 5 /\
  List.length (getTopConsumers None example_profile)
  = Nat.min (Z.to_nat 5) (List.length (agents example_profile)).
Proof.
  split; [discriminate|].
  apply (proj2 (proj2 (rankings_sorted_and_bounded None example_profile))).
  discriminate.
Defined.

(** ** Bottlenecks *)

Lemma includes_false s l : includes s l = false -> ~ In s l.
Proof.
  unfold includes. intros H Hin.
  assert (existsb (String.eqb s) l = true) as E.
  { apply existsb_exists. exists s. split; [exact Hin|].
    apply String.eqb_refl. }
  congruence.
Qed.

Lemma includes_true s l : includes s l = true -> In s l.
Proof.
  unfold includes. intros H. apply existsb_exists in H as (x & Hx & E).
  apply String.eqb_eq in E. now subst.
Qed.

(** X23: The list of bottleneck messages of a reachable state holds no message
    twice, and a profiler built with [alertOnBottleneck] off never calls a
    callback. *)
Theorem bottlenecks_distinct_and_gated p :
  reachable p ->
  NoDup (bottlenecks p) /\
  (alertOnBottleneck p = false -> delivered p = []).
Proof.
  intros (options & now & calls & ->). unfold run.
  assert (NoDup (bottlenecks (constructor options now)) /\
          (alertOnBottleneck (constructor options now) = false ->
           delivered (constructor options now) = [])) as H0
    by (split; [constructor | reflexivity]).
  revert H0. generalize (constructor options now).
  induction calls as [|c cs IH]; intros p H; simpl; [exact H|].
  apply IH. destruct H as [Hnd Hq].
  destruct c as [id name|id name stamp|id used now' stamp|id err stamp
                |id size limit stamp|cb|now']; cbn [call].
  - unfold trackAgent. destruct (negb _); now split.
  - unfold recordStart, trackAgent. destruct (negb _); now split.
  - unfold recordEnd. destruct (Map_get id (agents p)); [|now split].
    cbv zeta. unfold checkBottleneck.
    destruct (JS.gt _ _ && _); [|now split].
    match goal with |- context [includes ?m ?l] =>
      destruct (includes m l) eqn:Ei end; simpl; [now split|].
    split.
    + apply NoDup_app; [exact Hnd | repeat constructor; intros [] |].
      intros s Hs [<- | []]. now apply includes_false in Ei.
    + intros Ha. rewrite Ha. now apply Hq.
  - unfold recordError. destruct (Map_get id (agents p)); now split.
  - unfold recordContext. destruct (Map_get id (agents p)); [|now split].
    destruct (negb _); now split.
  - now split.
  - split; [constructor | exact Hq].
Qed.

Lemma bottlenecks_distinct_and_gated_witness :
  reachable example_profile /\ NoDup (bottlenecks example_profile).
Proof.
  split; [exact example_profile_reachable|].
  exact (proj1 (bottlenecks_distinct_and_gated _ example_profile_reachable)).
Defined.

Lemma le_twice_average (T c : Z) :
  0 < c ->
  (inject_Z T <= inject_Z T / inject_Z c * 2)%Q <-> T * c <= T * 2.
Proof.
  intros Hc.
  assert (inject_Z 0 < inject_Z c)%Q as Hq by (rewrite <- Zlt_Qlt; exact Hc).
  change (inject_Z 0) with 0%Q in Hq.
  rewrite <- (Qmult_le_r _ _ (inject_Z c) Hq).
  setoid_replace (inject_Z T / inject_Z c * 2 * inject_Z c)%Q
    with (inject_Z T * inject_Z 2)%Q.
  - rewrite <- !inject_Z_mult, <- Zle_Qle. reflexivity.
  - field. intros H. rewrite H in Hq. now apply Qlt_irrefl in Hq.
Qed.

Lemma average_lone id a q :
  agents q = [(id, a)] -> 0 < calls a ->
  getAverageExecutionTime q
  = (inject_Z (executionTimeMs a) / inject_Z (calls a))%Q.
Proof.
  intros H Hc. unfold getAverageExecutionTime. rewrite H. simpl.
  now rewrite (proj2 (Z.ltb_lt 0 (calls a)) Hc).
Qed.

Lemma checkBottleneck_lone id a q :
  agents q = [(id, a)] -> 0 < calls a ->
  (0 < executionTimeMs a -> 3 <= calls a ->
   In (bottleneckMsg a (getAverageExecutionTime q))
     (bottlenecks (checkBottleneck a q))) /\
  (0 <= executionTimeMs a -> calls a <= 2 -> checkBottleneck a q = q).
Proof.
  intros H Hc. pose proof (average_lone id a q H Hc) as Havg.
  pose proof (le_twice_average (executionTimeMs a) (calls a) Hc) as Hle.
  unfold checkBottleneck. rewrite Havg in *. unfold JS.gt. split.
  - intros HT H3.
    assert (Qle_bool (inject_Z (executionTimeMs a))
              (inject_Z (executionTimeMs a) / inject_Z (calls a) * 2)
            = false) as ->.
    { destruct (Qle_bool _ _) eqn:E; [|reflexivity].
      apply Qle_bool_iff, Hle in E. nia. }
    rewrite (proj2 (Z.ltb_lt 0 (calls a)) Hc). simpl.
    match goal with |- context [includes ?m ?l] =>
      destruct (includes m l) eqn:Ei end; simpl.
    + now apply includes_true.
    + apply in_or_app. right. now left.
  - intros HT H2.
    assert (Qle_bool (inject_Z (executionTimeMs a))
              (inject_Z (executionTimeMs a) / inject_Z (calls a) * 2)
            = true) as ->; [|reflexivity].
    apply Qle_bool_iff, Hle. nia.
Qed.

(** X24: With a single tracked agent, [recordEnd] compares the agent's
    cumulative time with twice its own average time per call: when the
    cumulative time is positive the agent is listed as a bottleneck as soon
    as it has three calls, and it is never listed on its first or second
    call. *)
Theorem lone_agent_bottleneck id a used now stamp p :
  agents p = [(id, a)] -> 0 <= calls a ->
  let p' := recordEnd id used now stamp p in
  exists a',
    agents p' = [(id, a')] /\ calls a' = calls a + 1 /\
    (0 < executionTimeMs a' -> 2 <= calls a ->
     In (bottleneckMsg a' (getAverageExecutionTime p')) (bottlenecks p')) /\
    (0 <= executionTimeMs a' -> calls a < 2 ->
     bottlenecks p' = bottlenecks p /\ delivered p' = delivered p).
Proof.
  intros H Hc. cbv zeta.
  assert (Map_get id (agents p) = Some a) as Hget.
  { rewrite H. unfold Map_get, isKey. simpl. now rewrite String.eqb_refl. }
  unfold recordEnd. rewrite Hget. cbv zeta.
  set (dt := match lastStart id (events p) with
             | Some startEvent => now - getTime (ev_timestamp startEvent)
             | None => 0
             end).
  set (q := push_event _ _).
  assert (agents q = [(id, ended used dt a)]) as Hq.
  { unfold q. simpl. rewrite H. simpl. unfold isKey. simpl.
    now rewrite String.eqb_refl. }
  assert (0 < calls (ended used dt a)) as Hpos by (simpl; lia).
  destruct (checkBottleneck_lone id _ q Hq Hpos) as [Hflag Hquiet].
  destruct (checkBottleneck_frame (ended used dt a) q) as (Ha & _).
  exists (ended used dt a). split; [now rewrite Ha|].
  split; [reflexivity|]. split.
  - intros HT H2.
    assert (getAverageExecutionTime (checkBottleneck (ended used dt a) q)
            = getAverageExecutionTime q) as ->
      by (unfold getAverageExecutionTime; now rewrite Ha).
    apply Hflag; [exact HT | simpl; lia].
  - intros HT H2. rewrite Hquiet by (exact HT || (simpl; lia)).
    now split.
Qed.

Lemma lone_agent_bottleneck_witness :
  let p := run (mkProfilerOptions "wf" None (Some true)) 0
             [CRecordStart "a1" "planner" date1;
              CRecordEnd "a1" 100 11 date2;
              CRecordEnd "a1" 50 21 date3] in
  let a := mkMetrics "a1" "planner" 150 30 (Finite 0) 2 0 in
  agents p = [("a1"%string, a)] /\ 0 <= calls a /\
  exists a',
    agents (recordEnd "a1" 25 31 date4 p) = [("a1"%string, a')] /\
    calls a' = calls a + 1.
Proof.
  split; [reflexivity|]. split; [discriminate|].
  destruct (lone_agent_bottleneck "a1"
              (mkMetrics "a1" "planner" 150 30 (Finite 0) 2 0)
              25 31 date4
              (run (mkProfilerOptions "wf" None (Some true)) 0
                 [CRecordStart "a1" "planner" date1;
                  CRecordEnd "a1" 100 11 date2;
                  CRecordEnd "a1" 50 21 date3])
              eq_refl ltac:(discriminate))
    as (a' & H1 & H2 & _).
  exists a'. now split.
Defined.

End ProfilerFacts.
